(** * OptionPricing: binomial-tree and Black-Scholes pricers

    A shallow embedding of
      - [Binomial Tree/AmericanOption.py]  (module [BinomialTree]) and
      - [Black-Scholes/Black-Scholes.py]   (module [BlackScholes]),
    with the properties of the specification stated over it.

    Modelling conventions.
      - Python exceptions are values of [exn]; a computation that may raise
        has type [result A].  Text written by [print] is returned next to the
        value ([outcome]).
      - The binomial pricer works on Python floats with the [math] module,
        whose operations raise.  It is embedded over an abstract
        floating-point arithmetic ([Float.Arith]): the carrier, the IEEE
        operations and the tests that decide whether an operation raises are
        parameters, so that what is proved for every arithmetic holds of the
        machine's.  [RealFloat] is the arithmetic of exact real numbers with
        the range of a double: nothing is rounded, and [math.exp] and [**]
        raise OverflowError above the largest double.  Statements made "in
        real arithmetic" are statements about that instance.
      - A two-dimensional numpy array is the list of its rows; every index is
        bounds-checked as numpy does ([IndexError]).
      - [scipy.stats.norm.cdf] is the cumulative distribution function of the
        normal law, defined here through the Riemann integral of the Gaussian
        kernel.
      - The analytic pricers are embedded over the real numbers, on the
        domain of the contract parameters (S0, K, T, v, H > 0): their values
        are the exact ones, which the float code meets up to rounding.  Their
        arithmetic is numpy's, which does not raise, apart from the
        Python-float powers: the two powers of a barrier method raise
        OverflowError above the largest double, and a constructor is taken
        at parameters whose squares are in range. *)

From Stdlib Require Import String Reals Lra Lia List Bool Arith ZArith.
Import ListNotations.
Open Scope R_scope.

(* ===================================================================== *)
(** * Python runtime: exceptions, results, loops                          *)
(* ===================================================================== *)

Module Py.

Inductive exn : Type :=
| ZeroDivisionError
| ValueError
| IndexError
| OverflowError.

Inductive result (A : Type) : Type :=
| Ok (a : A)
| Raise (e : exn).
Arguments Ok {A} a.
Arguments Raise {A} e.

Definition bind {A B : Type} (c : result A) (k : A -> result B) : result B :=
  match c with
  | Ok a => k a
  | Raise e => Raise e
  end.

(** What a call leaves behind when it returns: the lines it printed and the
    returned value. *)
Record outcome (V : Type) : Type := Return { stdout : list string; retval : V }.
Arguments Return {V} stdout retval.
Arguments stdout {V} o.
Arguments retval {V} o.

(** [range(lo, hi)] and [range(n - 1, -1, -1)]. *)
Definition range (lo hi : nat) : list nat := seq lo (hi - lo).
Definition range_down (n : nat) : list nat := rev (seq 0 n).

(** [for x in xs: body], threading the mutated object [s]. *)
Fixpoint for_each {S X : Type} (xs : list X) (body : X -> S -> result S)
  (s : S) : result S :=
  match xs with
  | [] => Ok s
  | x :: xs' => bind (body x s) (for_each xs' body)
  end.

End Py.

Import Py.

Declare Scope py_scope.
Delimit Scope py_scope with py.
Notation "x <- c ;; k" := (bind c (fun x => k))
  (at level 61, c at next level, right associativity) : py_scope.
Open Scope py_scope.

(* ===================================================================== *)
(** * Python floats                                                       *)
(* ===================================================================== *)

Module Float.

(** A floating-point arithmetic: the carrier, the conversion of a Python
    int, the operations that never raise (on overflow they give an infinity,
    which is a value of the carrier), and the tests by which the Python
    operations decide to raise. *)
Class Arith : Type :=
  { F : Type;
    of_Z : Z -> F;
    fadd : F -> F -> F;
    fsub : F -> F -> F;
    fmul : F -> F -> F;
    fdiv : F -> F -> F;
    fmax : F -> F -> F;
    fsqrt : F -> F;
    fexp : F -> F;
    fpow : F -> nat -> F;
    (** [x == 0.0] *)
    is_zero : F -> bool;
    (** [x < 0.0] *)
    is_negative : F -> bool;
    (** the exponential of [x] is beyond the largest float *)
    exp_overflows : F -> bool;
    (** the power [x ** n] is beyond the largest float *)
    pow_overflows : F -> nat -> bool }.

Section Operations.

Context {A : Arith}.

(** [x / y] for floats [x] and [y]. *)
Definition truediv (x y : F) : result F :=
  if is_zero y then Raise ZeroDivisionError else Ok (fdiv x y).

(** [x / n] for a float [x] and an int [n >= 0]: the int is converted, and a
    nonzero int converts to a nonzero float. *)
Definition truediv_int (x : F) (n : nat) : result F :=
  if (n =? 0)%nat then Raise ZeroDivisionError
  else Ok (fdiv x (of_Z (Z.of_nat n))).

(** [math.sqrt(x)]: "math domain error" on a negative argument. *)
Definition math_sqrt (x : F) : result F :=
  if is_negative x then Raise ValueError else Ok (fsqrt x).

(** [math.exp(x)]: "math range error" when the result overflows. *)
Definition math_exp (x : F) : result F :=
  if exp_overflows x then Raise OverflowError else Ok (fexp x).

(** [x ** n] for a float [x] and an int [n >= 0]. *)
Definition pow_int (x : F) (n : nat) : result F :=
  if pow_overflows x n then Raise OverflowError else Ok (fpow x n).

End Operations.

End Float.

Import Float.

(* ===================================================================== *)
(** * numpy: two-dimensional arrays                                       *)
(* ===================================================================== *)

Module Np.

Definition ndarray (X : Type) : Type := list (list X).

Fixpoint list_set {X : Type} (l : list X) (i : nat) (x : X) : list X :=
  match l, i with
  | [], _ => []
  | _ :: l', O => x :: l'
  | y :: l', S i' => y :: list_set l' i' x
  end.

(** [A[i, j]]. *)
Definition getitem {X : Type} (A : ndarray X) (i j : nat) : result X :=
  match nth_error A i with
  | Some row =>
      match nth_error row j with
      | Some x => Ok x
      | None => Raise IndexError
      end
  | None => Raise IndexError
  end.

(** [A[i, j] = x]. *)
Definition setitem {X : Type} (A : ndarray X) (i j : nat) (x : X)
  : result (ndarray X) :=
  match nth_error A i with
  | Some row =>
      if (j <? length row)%nat then Ok (list_set A i (list_set row j x))
      else Raise IndexError
  | None => Raise IndexError
  end.

(** [A[:, j]]. *)
Fixpoint getcol {X : Type} (A : ndarray X) (j : nat) : result (list X) :=
  match A with
  | [] => Ok []
  | row :: A' =>
      match nth_error row j with
      | Some x => c <- getcol A' j ;; Ok (x :: c)
      | None => Raise IndexError
      end
  end.

(** [A[:, j] = c] for a one-dimensional [c] with one entry per row. *)
Fixpoint setcol {X : Type} (A : ndarray X) (j : nat) (c : list X)
  : result (ndarray X) :=
  match A, c with
  | [], [] => Ok []
  | row :: A', x :: c' =>
      if (j <? length row)%nat
      then A'' <- setcol A' j c' ;; Ok (list_set row j x :: A'')
      else Raise IndexError
  | _, _ => Raise ValueError
  end.

Section Elementwise.

Context {A : Arith}.

(** [np.zeros([n, m])]. *)
Definition zeros (n m : nat) : ndarray F := repeat (repeat (of_Z 0) m) n.

(** [c - k] and [k - c] for a one-dimensional [c] and a scalar [k]. *)
Definition sub_scalar (c : list F) (k : F) : list F := map (fun x => fsub x k) c.
Definition rsub_scalar (k : F) (c : list F) : list F := map (fun x => fsub k x) c.

Fixpoint zip_max (a b : list F) : list F :=
  match a, b with
  | x :: a', y :: b' => fmax x y :: zip_max a' b'
  | _, _ => []
  end.

(** [np.maximum(k, c)] for a scalar [k]. *)
Definition maximum_scalar (k : F) (c : list F) : list F := map (fmax k) c.

(** [np.maximum(a, b)] for one-dimensional arrays of one shape; the columns
    passed by the pricer always have the same length, and broadcasting between
    different lengths is not modelled. *)
Definition maximum (a b : list F) : result (list F) :=
  if (length a =? length b)%nat then Ok (zip_max a b) else Raise ValueError.

End Elementwise.

End Np.

Import Np.

(* ===================================================================== *)
(** * Binomial Tree/AmericanOption.py                                     *)
(* ===================================================================== *)

Module BinomialTree.

Section Pricer.

Context {A : Arith}.

(** The "Bi-Tree Parameters" block. *)
Record BiTreeParameters : Type :=
  { dt : F; u : F; d : F; a : F; p : F }.

(** The step count [N] is a natural number; [N = 0] reaches the division
    [T / N]. *)
Definition BiTree_Parameters (T v r q : F) (N : nat) : result BiTreeParameters :=
  dt <- truediv_int T N ;;
  s <- math_sqrt dt ;;
  u <- math_exp (fmul v s) ;;
  d <- truediv (of_Z 1) u ;;
  a <- math_exp (fmul (fsub r q) dt) ;;
  p <- truediv (fsub a d) (fsub u d) ;;
  Ok {| dt := dt; u := u; d := d; a := a; p := p |}.

(** The "Bi-Tree Construction" block: the stock tree. *)
Definition BiTree_Construction (S0 u d : F) (N : nat) : result (ndarray F) :=
  for_each (range 0 (N + 1))
    (fun j stock_tree =>
       for_each (range 0 (j + 1))
         (fun i stock_tree =>
            up <- pow_int u (j - i) ;;
            down <- pow_int d i ;;
            setitem stock_tree i j (fmul (fmul S0 up) down))
         stock_tree)
    (zeros (N + 1) (N + 1)).

(** The text printed on an unknown option type. *)
Definition diagnostic : string :=
  "Please input the right option type: ``call`` or ``put`` ".

(** The final [return option_tree[0, 0]] is reached from the 'call' and the
    'put' branch only and is written at the end of each; the last branch
    returns on its own. *)
Definition AmericanOption (S0 K T v r q : F) (N : nat) (CallorPut : string)
  : result (outcome F) :=
  (* ------- Bi-Tree Parameters ------------ *)
  prm <- BiTree_Parameters T v r q N ;;
  let u := u prm in let d := d prm in let a := a prm in let p := p prm in
  (* ------- Bi-Tree Construction ---------- *)
  stock_tree <- BiTree_Construction S0 u d N ;;
  let option_tree := zeros (N + 1) (N + 1) in
  if (CallorPut =? "call")%string then
    last <- getcol stock_tree N ;;
    option_tree <- setcol option_tree N
                     (maximum_scalar (of_Z 0) (sub_scalar last K)) ;;
    option_tree <-
      for_each (range_down N)
        (fun j option_tree =>
           option_tree <-
             for_each (range 0 (j + 1))
               (fun i option_tree =>
                  disc <- truediv (of_Z 1) a ;;
                  up <- getitem option_tree i (j + 1) ;;
                  down <- getitem option_tree (i + 1) (j + 1) ;;
                  setitem option_tree i j
                    (fmul disc (fadd (fmul p up)
                                     (fmul (fsub (of_Z 1) p) down))))
               option_tree ;;
           held <- getcol option_tree j ;;
           stock <- getcol stock_tree j ;;
           floored <- maximum held (sub_scalar stock K) ;;
           setcol option_tree j floored)
        option_tree ;;
    price <- getitem option_tree 0 0 ;;
    Ok (Return [] price)
  else if (CallorPut =? "put")%string then
    last <- getcol stock_tree N ;;
    option_tree <- setcol option_tree N
                     (maximum_scalar (of_Z 0) (rsub_scalar K last)) ;;
    option_tree <-
      for_each (range_down N)
        (fun j option_tree =>
           option_tree <-
             for_each (range 0 (j + 1))
               (fun i option_tree =>
                  disc <- truediv (of_Z 1) a ;;
                  up <- getitem option_tree i (j + 1) ;;
                  down <- getitem option_tree (i + 1) (j + 1) ;;
                  setitem option_tree i j
                    (fmul disc (fadd (fmul p up)
                                     (fmul (fsub (of_Z 1) p) down))))
               option_tree ;;
           held <- getcol option_tree j ;;
           stock <- getcol stock_tree j ;;
           floored <- maximum held (rsub_scalar K stock) ;;
           setcol option_tree j floored)
        option_tree ;;
    price <- getitem option_tree 0 0 ;;
    Ok (Return [] price)
  else
    Ok (Return [diagnostic] (of_Z (-1))).

(** ** The lattice recursion as the specification words it *)

Inductive kind : Type := call | put.

Definition kind_name (k : kind) : string :=
  match k with call => "call" | put => "put" end.

(** stock[i][j] = S0 u^(j-i) d^i. *)
Definition spec_stock (S0 u d : F) (i j : nat) : F :=
  fmul (fmul S0 (fpow u (j - i))) (fpow d i).

(** Exercise value of a node: stock - K for a call, K - stock for a put. *)
Definition spec_exercise (k : kind) (K s : F) : F :=
  match k with call => fsub s K | put => fsub K s end.

(** option[i][j], with [n] the number of steps from column [j] to the last
    column: the terminal payoff for [n = 0]; otherwise the discounted
    expectation (1/a) (p option[i][j+1] + (1-p) option[i+1][j+1]) of the two
    successors, floored by the exercise value. *)
Fixpoint spec_option (k : kind) (S0 K u d a p : F) (n : nat) (i j : nat) : F :=
  match n with
  | O => fmax (of_Z 0) (spec_exercise k K (spec_stock S0 u d i j))
  | S n' =>
      fmax (fmul (fdiv (of_Z 1) a)
              (fadd (fmul p (spec_option k S0 K u d a p n' i (S j)))
                    (fmul (fsub (of_Z 1) p)
                          (spec_option k S0 K u d a p n' (S i) (S j)))))
           (spec_exercise k K (spec_stock S0 u d i j))
  end.

End Pricer.

End BinomialTree.

(* ===================================================================== *)
(** * The arithmetic of exact reals with the range of a double            *)
(* ===================================================================== *)

Module RealFloat.

(** The largest double, (2 - 2^(-52)) 2^1023. *)
Definition float_max : R := IZR (2 ^ 1024 - 2 ^ 971).

(** No operation rounds; [math.exp] and [**] overflow above [float_max]. *)
Definition real : Arith :=
  {| F := R;
     of_Z := IZR;
     fadd := Rplus;
     fsub := Rminus;
     fmul := Rmult;
     fdiv := Rdiv;
     fmax := Rmax;
     fsqrt := sqrt;
     fexp := exp;
     fpow := pow;
     is_zero := fun x => if Req_dec_T x 0 then true else false;
     is_negative := fun x => if Rlt_dec x 0 then true else false;
     exp_overflows := fun x => if Rlt_dec float_max (exp x) then true else false;
     pow_overflows :=
       fun x n => if Rlt_dec float_max (Rabs (x ^ n)) then true else false |}.

(** The step parameters as the specification writes them: dt = T/N,
    u = exp(v sqrt dt), d = 1/u, a = exp((r - q) dt), p = (a - d)/(u - d). *)
Definition spec_dt (T : R) (N : nat) : R := T / INR N.
Definition spec_u (T v : R) (N : nat) : R := exp (v * sqrt (spec_dt T N)).
Definition spec_d (T v : R) (N : nat) : R := 1 / spec_u T v N.
Definition spec_a (T r q : R) (N : nat) : R := exp ((r - q) * spec_dt T N).
Definition spec_p (T v r q : R) (N : nat) : R :=
  (spec_a T r q N - spec_d T v N) / (spec_u T v N - spec_d T v N).

Definition spec_parameters (T v r q : R) (N : nat)
  : BinomialTree.BiTreeParameters (A := real) :=
  @BinomialTree.Build_BiTreeParameters real
    (spec_dt T N) (spec_u T v N) (spec_d T v N) (spec_a T r q N)
    (spec_p T v r q N).

(** The root of the lattice over those parameters. *)
Definition spec_price (k : BinomialTree.kind) (S0 K T v r q : R) (N : nat) : R :=
  BinomialTree.spec_option (A := real) k S0 K (spec_u T v N) (spec_d T v N)
    (spec_a T r q N) (spec_p T v r q N) N 0 0.

End RealFloat.

Import RealFloat.

(* ===================================================================== *)
(** * scipy.stats.norm                                                    *)
(* ===================================================================== *)

Module Norm.

(** The Gaussian kernel exp(-t^2/2). *)
Definition gauss (t : R) : R := exp (- (t * t) / 2).

Lemma gauss_continuity (x : R) : continuity_pt gauss x.
Proof. apply derivable_continuous_pt. unfold gauss. reg. Qed.

Lemma gauss_integrable (lo hi : R) : Riemann_integrable gauss lo hi.
Proof.
  destruct (Rle_dec lo hi) as [Hle | Hgt].
  - apply continuity_implies_RiemannInt;
      [exact Hle | intros; apply gauss_continuity].
  - apply RiemannInt_P1, continuity_implies_RiemannInt;
      [lra | intros; apply gauss_continuity].
Qed.

(** The integral of the kernel from [lo] to [hi]. *)
Definition gauss_area (lo hi : R) : R := RiemannInt (gauss_integrable lo hi).

(** Modelled from the spec: [scipy.stats.norm.cdf] is a library function
    outside the repository; the specification names it the standard normal
    cumulative distribution function.  It is 1/2 + (1/sqrt(2 pi)) times the
    integral of exp(-t^2/2) from 0 to x. *)
Definition Phi (x : R) : R := 1 / 2 + / sqrt (2 * PI) * gauss_area 0 x.

(** [ss.norm.cdf(x, loc, scale)]; [ss.norm.cdf(x)] is [norm_cdf x 0 1]. *)
Definition norm_cdf (x loc scale : R) : R := Phi ((x - loc) / scale).

End Norm.

Import Norm.

(* ===================================================================== *)
(** * Black-Scholes/Black-Scholes.py                                      *)
(* ===================================================================== *)

Module BlackScholes.

(** ** class BSmodel *)

Record BSmodel : Type :=
  { S0 : R; K : R; T : R; v : R; r : R; q : R; d1 : R; d2 : R }.

(** The methods called by a constructor take the attributes they read. *)
Definition _d1 (S0 K T v r q : R) : R :=
  (ln (S0 / K) + (r - q + 1 / 2 * (v ^ 2)) * T) / (v * sqrt T).

Definition _d2 (S0 K T v r q : R) : R :=
  (ln (S0 / K) + (r - q - 1 / 2 * (v ^ 2)) * T) / (v * sqrt T).

Definition BSmodel__init__ (S0 K T v r q : R) : BSmodel :=
  {| S0 := S0; K := K; T := T; v := v; r := r; q := q;
     d1 := _d1 S0 K T v r q;
     d2 := _d2 S0 K T v r q |}.

(** ** class VanillaEuro(BSmodel) *)

Definition VanillaEuro : Type := BSmodel.
Definition VanillaEuro__init__ : R -> R -> R -> R -> R -> R -> VanillaEuro :=
  BSmodel__init__.

Definition vanilla_european_call (self : VanillaEuro) : R :=
  S0 self * exp (- q self * T self) * norm_cdf (d1 self) 0 1
  - K self * exp (-1 * r self * T self) * norm_cdf (d2 self) 0 1.

Definition vanilla_european_put (self : VanillaEuro) : R :=
  K self * exp (-1 * r self * T self) * norm_cdf (-1 * d2 self) 0 1
  - S0 self * exp (- q self * T self) * norm_cdf (-1 * d1 self) 0 1.

(** ** class SpreadOption(BSmodel) *)

Definition SpreadOption : Type := BSmodel.
Definition SpreadOption__init__ : R -> R -> R -> R -> R -> R -> SpreadOption :=
  BSmodel__init__.

Definition bull_call (self : SpreadOption) (K2 : R) : R :=
  let c1 := vanilla_european_call
              (VanillaEuro__init__ (S0 self) (K self) (T self) (v self) (r self) (q self)) in
  let c2 := vanilla_european_call
              (VanillaEuro__init__ (S0 self) K2 (T self) (v self) (r self) (q self)) in
  c2 - c1.

Definition bull_put (self : SpreadOption) (K2 : R) : R :=
  let p1 := vanilla_european_put
              (VanillaEuro__init__ (S0 self) (K self) (T self) (v self) (r self) (q self)) in
  let p2 := vanilla_european_put
              (VanillaEuro__init__ (S0 self) K2 (T self) (v self) (r self) (q self)) in
  p2 - p1.

Definition bear_call (self : SpreadOption) (K2 : R) : R :=
  let c1 := vanilla_european_call
              (VanillaEuro__init__ (S0 self) (K self) (T self) (v self) (r self) (q self)) in
  let c2 := vanilla_european_call
              (VanillaEuro__init__ (S0 self) K2 (T self) (v self) (r self) (q self)) in
  c1 - c2.

Definition bear_put (self : SpreadOption) (K2 : R) : R :=
  let p1 := vanilla_european_put
              (VanillaEuro__init__ (S0 self) (K self) (T self) (v self) (r self) (q self)) in
  let p2 := vanilla_european_put
              (VanillaEuro__init__ (S0 self) K2 (T self) (v self) (r self) (q self)) in
  p1 - p2.

(** ** class BinaryOption(BSmodel) *)

Definition BinaryOption : Type := BSmodel.
Definition BinaryOption__init__ : R -> R -> R -> R -> R -> R -> BinaryOption :=
  BSmodel__init__.

Definition bi_cashcall (self : BinaryOption) (Q : R) : R :=
  Q * exp (-1 * r self * T self) * norm_cdf (d2 self) 0 1.

Definition bi_cashput (self : BinaryOption) (Q : R) : R :=
  Q * exp (-1 * r self * T self) * norm_cdf (-1 * d2 self) 0 1
  * exp (- q self * T self).

Definition bi_assetcall (self : BinaryOption) : R :=
  S0 self * exp (-1 * r self * T self) * norm_cdf (d1 self) 0 1.

Definition bi_assetput (self : BinaryOption) : R :=
  S0 self * exp (-1 * r self * T self) * norm_cdf (-1 * d1 self) 0 1
  * exp (- q self * T self).

(** ** class BarrierOption(BSmodel) *)

Record BarrierOption : Type :=
  { base : BSmodel; H : R; lamb : R; y : R; x1 : R; y1 : R }.

Definition _lambda (v r q : R) : R := (r - q + v ^ 2 / 2) / v ^ 2.

Definition _y (S0 K T v H lamb : R) : R :=
  ln (H ^ 2 / (S0 * K)) / (v * sqrt T) + lamb * v * sqrt T.

Definition _x1 (S0 T v H lamb : R) : R :=
  ln (S0 / H) / (v * sqrt T) + lamb * v * sqrt T.

Definition _y1 (S0 T v H lamb : R) : R :=
  ln (H / S0) / (v * sqrt T) + lamb * v * sqrt T.

Definition BarrierOption__init__ (S0 K T v r q barrier : R) : BarrierOption :=
  let lamb := _lambda v r q in
  {| base := BSmodel__init__ S0 K T v r q;
     H := barrier;
     lamb := lamb;
     y := _y S0 K T v barrier lamb;
     x1 := _x1 S0 T v barrier lamb;
     y1 := _y1 S0 T v barrier lamb |}.

(** [x ** y] for Python floats [x > 0] and [y]: OverflowError when the
    result is beyond the largest double.  (The base is the ratio H / S0 of
    two positive numbers.) *)
Definition float_pow (x y : R) : result R :=
  if Rlt_dec float_max (Rpower x y) then Raise OverflowError
  else Ok (Rpower x y).

(** The end of each barrier method: the choice of the leg by [knock]. *)
Definition select_knock (knock : string) (out_leg in_leg : R) : outcome R :=
  if (knock =? "out")%string then Return [] out_leg
  else if (knock =? "in")%string then Return [] in_leg
  else Return ["please input correct knock type"%string] (-1).

Definition down_call (self : BarrierOption) (knock : string) : result (outcome R) :=
  let S0 := S0 (base self) in let K := K (base self) in
  let T := T (base self) in let v := v (base self) in
  let r := r (base self) in let q := q (base self) in
  let H := H self in let lamb := lamb self in
  let y := y self in let x1 := x1 self in let y1 := y1 self in
  let c := vanilla_european_call (VanillaEuro__init__ S0 K T v r q) in
  legs <-
    (if Rle_dec K H then
       pw <- float_pow (H / S0) (2 * lamb) ;;
       pw' <- float_pow (H / S0) (2 * lamb - 2) ;;
       let cdi := S0 * exp (- q * T) * pw * norm_cdf y 0 1
                  - K * exp (- r * T) * pw' * norm_cdf (y - v * sqrt T) 0 1 in
       let cdo := c - cdi in
       Ok (cdo, cdi)
     else
       pw <- float_pow (H / S0) (2 * lamb) ;;
       pw' <- float_pow (H / S0) (2 * lamb - 2) ;;
       let cdo := S0 * norm_cdf x1 0 1 * exp (- q * T)
                  - K * exp (- r * T) * norm_cdf (x1 - v * sqrt T) 0 1
                  - S0 * exp (- q * T) * pw * norm_cdf y1 0 1
                  + K * exp (- r * T) * pw' * norm_cdf (y1 - v * sqrt T) 0 1 in
       let cdi := c - cdo in
       Ok (cdo, cdi)) ;;
  let (cdo, cdi) := legs in
  Ok (select_knock knock cdo cdi).

Definition up_call (self : BarrierOption) (knock : string) : result (outcome R) :=
  let S0 := S0 (base self) in let K := K (base self) in
  let T := T (base self) in let v := v (base self) in
  let r := r (base self) in let q := q (base self) in
  let H := H self in let lamb := lamb self in
  let y := y self in let x1 := x1 self in let y1 := y1 self in
  let c := vanilla_european_call (VanillaEuro__init__ S0 K T v r q) in
  legs <-
    (if Rle_dec H K then
       let cuo := 0 in
       let cui := c in
       Ok (cuo, cui)
     else
       pw <- float_pow (H / S0) (2 * lamb) ;;
       pw' <- float_pow (H / S0) (2 * lamb - 2) ;;
       let cui := S0 * norm_cdf x1 0 1 * exp (- q * T)
                  - K * exp (- r * T) * norm_cdf (x1 - v * sqrt T) 0 1
                  - S0 * exp (- q * T) * pw
                    * (norm_cdf (- y) 0 1 - norm_cdf (- y1) 0 1)
                  + K * exp (- r * T) * pw'
                    * (norm_cdf (- y + v * sqrt T) 0 1
                       - norm_cdf (- y1 + v * sqrt T) 0 1) in
       let cuo := c - cui in
       Ok (cuo, cui)) ;;
  let (cuo, cui) := legs in
  Ok (select_knock knock cuo cui).

Definition up_put (self : BarrierOption) (knock : string) : result (outcome R) :=
  let S0 := S0 (base self) in let K := K (base self) in
  let T := T (base self) in let v := v (base self) in
  let r := r (base self) in let q := q (base self) in
  let H := H self in let lamb := lamb self in
  let y := y self in let x1 := x1 self in let y1 := y1 self in
  let p := vanilla_european_put (VanillaEuro__init__ S0 K T v r q) in
  legs <-
    (if Rge_dec H K then
       pw <- float_pow (H / S0) (2 * lamb) ;;
       let pui := - S0 * exp (- q * T) * pw * norm_cdf (- y) 0 1 in
       (* the next source line, [+ K * ...], is an expression statement of
          its own (a unary plus applied to a product): it is evaluated, its
          power can raise, and its value is dropped *)
       pw' <- float_pow (H / S0) (2 * lamb - 2) ;;
       let _ := K * exp (- r * T) * pw' * norm_cdf (- y + v * sqrt T) 0 1 in
       let puo := p - pui in
       Ok (puo, pui)
     else
       pw <- float_pow (H / S0) (2 * lamb) ;;
       pw' <- float_pow (H / S0) (2 * lamb - 2) ;;
       let puo := - S0 * norm_cdf (- x1) 0 1 * exp (- q * T)
                  + K * exp (- r * T) * norm_cdf (- x1 + v * sqrt T) 0 1
                  + S0 * exp (- q * T) * pw * norm_cdf (- y1) 0 1
                  - K * exp (- r * T) * pw' * norm_cdf (- y1 + v * sqrt T) 0 1 in
       let pui := p - puo in
       Ok (puo, pui)) ;;
  let (puo, pui) := legs in
  Ok (select_knock knock puo pui).

Definition down_put (self : BarrierOption) (knock : string) : result (outcome R) :=
  let S0 := S0 (base self) in let K := K (base self) in
  let T := T (base self) in let v := v (base self) in
  let r := r (base self) in let q := q (base self) in
  let H := H self in let lamb := lamb self in
  let y := y self in let x1 := x1 self in let y1 := y1 self in
  let p := vanilla_european_put (VanillaEuro__init__ S0 K T v r q) in
  legs <-
    (if Rge_dec H K then
       let pdo := 0 in
       let pdi := p in
       Ok (pdo, pdi)
     else
       pw <- float_pow (H / S0) (2 * lamb) ;;
       pw' <- float_pow (H / S0) (2 * lamb - 2) ;;
       let pdi := - S0 * norm_cdf (- x1) 0 1 * exp (- q * T)
                  + K * exp (- r * T) * norm_cdf (- x1 + v * sqrt T) 0 1
                  + S0 * exp (- q * T) * pw
                    * (norm_cdf y 0 1 - norm_cdf (- y1) 0 1)
                  - K * exp (- r * T) * pw'
                    * (norm_cdf (y - v * sqrt T) 0 1
                       - norm_cdf (y1 - v * sqrt T) 0 1) in
       let pdo := p - pdi in
       Ok (pdo, pdi)) ;;
  let (pdo, pdi) := legs in
  Ok (select_knock knock pdo pdi).

End BlackScholes.

(* ===================================================================== *)
(** * Facts on the runtime model                                          *)
(* ===================================================================== *)

Module PyFacts.

Example range_0_3 : range 0 3 = [0; 1; 2]%nat.
Proof. reflexivity. Qed.

Example range_down_3 : range_down 3 = [2; 1; 0]%nat.
Proof. reflexivity. Qed.

Example for_each_stops_at_first_error :
  for_each [1; 2; 3]%nat
    (fun x acc => if (x =? 2)%nat then Raise ValueError else Ok (x :: acc)) []
  = Raise ValueError.
Proof. reflexivity. Qed.

Lemma range_from_zero (n : nat) : range 0 n = seq 0 n.
Proof. unfold range. rewrite Nat.sub_0_r. reflexivity. Qed.

(** An ascending loop establishes an invariant indexed by the next value of
    the loop variable. *)
Lemma for_each_seq_invariant {S : Type} (I : nat -> S -> Prop)
  (body : nat -> S -> result S) (len lo : nat) (s : S) :
  I lo s ->
  (forall k t, (lo <= k < lo + len)%nat -> I k t ->
               exists t', body k t = Ok t' /\ I (Datatypes.S k) t') ->
  exists s', for_each (seq lo len) body s = Ok s' /\ I (lo + len)%nat s'.
Proof.
  revert lo s. induction len as [| len IH]; intros lo s H0 Hstep.
  - exists s. simpl. rewrite Nat.add_0_r. split; [reflexivity | exact H0].
  - simpl. destruct (Hstep lo s ltac:(lia) H0) as [t [Eb It]].
    rewrite Eb. simpl.
    destruct (IH (Datatypes.S lo) t It) as [s' [Es Is]].
    + intros k t' Hk. apply Hstep. lia.
    + exists s'. split; [exact Es |].
      replace (lo + Datatypes.S len)%nat with (Datatypes.S lo + len)%nat by lia.
      exact Is.
Qed.

(** The same for a loop that is only known to have returned: each step that
    returns keeps the invariant. *)
Lemma for_each_seq_returned {S : Type} (I : nat -> S -> Prop)
  (body : nat -> S -> result S) (len lo : nat) (s s' : S) :
  I lo s ->
  (forall k t t', (lo <= k < lo + len)%nat -> I k t -> body k t = Ok t' ->
                  I (Datatypes.S k) t') ->
  for_each (seq lo len) body s = Ok s' -> I (lo + len)%nat s'.
Proof.
  revert lo s. induction len as [| len IH]; intros lo s H0 Hstep E.
  - simpl in E. injection E as <-. rewrite Nat.add_0_r. exact H0.
  - simpl in E. destruct (body lo s) as [t | e] eqn:Eb; [| discriminate].
    simpl in E.
    replace (lo + Datatypes.S len)%nat with (Datatypes.S lo + len)%nat by lia.
    apply (IH (Datatypes.S lo) t).
    + apply (Hstep lo s t); [lia | exact H0 | exact Eb].
    + intros k t1 t2 Hk. apply Hstep. lia.
    + exact E.
Qed.

Lemma for_each_app {S X : Type} (xs ys : list X) (body : X -> S -> result S) (s : S) :
  for_each (xs ++ ys) body s = bind (for_each xs body s) (for_each ys body).
Proof.
  revert s. induction xs as [| x xs IH]; intro s; simpl.
  - reflexivity.
  - destruct (body x s) as [t | e]; simpl; [apply IH | reflexivity].
Qed.

(** A descending loop [range(n - 1, -1, -1)] establishes an invariant indexed
    by the last value the loop variable took. *)
Lemma for_each_range_down_invariant {S : Type} (I : nat -> S -> Prop)
  (body : nat -> S -> result S) (n : nat) (s : S) :
  I n s ->
  (forall k t, (k < n)%nat -> I (Datatypes.S k) t ->
               exists t', body k t = Ok t' /\ I k t') ->
  exists s', for_each (range_down n) body s = Ok s' /\ I 0%nat s'.
Proof.
  unfold range_down. revert s. induction n as [| n IH]; intros s H0 Hstep.
  - exists s. split; [reflexivity | exact H0].
  - rewrite seq_S, rev_app_distr. simpl.
    destruct (Hstep n s ltac:(lia) H0) as [t [Eb It]].
    rewrite Eb. simpl. apply IH; [exact It |].
    intros k t' Hk. apply Hstep. lia.
Qed.

End PyFacts.

Module FloatFacts.

Section Operations.

Context {A : Arith}.

Lemma truediv_ok (x y : F) : is_zero y = false -> truediv x y = Ok (fdiv x y).
Proof. intro Hy. unfold truediv. rewrite Hy. reflexivity. Qed.

Lemma truediv_by_zero (x y : F) :
  is_zero y = true -> truediv x y = Raise ZeroDivisionError.
Proof. intro Hy. unfold truediv. rewrite Hy. reflexivity. Qed.

Lemma truediv_int_ok (x : F) (n : nat) :
  (1 <= n)%nat -> truediv_int x n = Ok (fdiv x (of_Z (Z.of_nat n))).
Proof.
  intro Hn. unfold truediv_int.
  destruct (Nat.eqb_spec n 0); [lia | reflexivity].
Qed.

Lemma pow_int_ok (x : F) (n : nat) :
  pow_overflows x n = false -> pow_int x n = Ok (fpow x n).
Proof. intro H. unfold pow_int. rewrite H. reflexivity. Qed.

Lemma pow_int_returned (x y : F) (n : nat) :
  pow_int x n = Ok y -> pow_overflows x n = false /\ y = fpow x n.
Proof.
  unfold pow_int. destruct (pow_overflows x n); [discriminate |].
  intro E. injection E as <-. split; reflexivity.
Qed.

End Operations.

End FloatFacts.

Module NpFacts.

Lemma list_set_length {X : Type} (l : list X) (i : nat) (x : X) :
  length (list_set l i x) = length l.
Proof.
  revert i. induction l as [| y l IH]; intros [| i]; simpl; auto.
Qed.

Lemma nth_list_set_eq {X : Type} (l : list X) (i : nat) (x dflt : X) :
  (i < length l)%nat -> nth i (list_set l i x) dflt = x.
Proof.
  revert i. induction l as [| y l IH]; intros [| i] Hi; simpl in *; try lia.
  - reflexivity.
  - apply IH. lia.
Qed.

Lemma nth_list_set_ne {X : Type} (l : list X) (i k : nat) (x dflt : X) :
  k <> i -> nth k (list_set l i x) dflt = nth k l dflt.
Proof.
  revert i k. induction l as [| y l IH]; intros [| i] [| k] Hk; simpl; auto.
  - congruence.
Qed.

Lemma nth_map_in_range {X Y : Type} (f : X -> Y) (l : list X) (i : nat) (dx : X) (dy : Y) :
  (i < length l)%nat -> nth i (map f l) dy = f (nth i l dx).
Proof.
  intro Hi. rewrite (nth_indep (map f l) dy (f dx)) by (rewrite length_map; exact Hi).
  apply map_nth.
Qed.

Section Arrays.

Variable X : Type.
Variable dflt : X.

(** The array has [n] rows of [m] entries each. *)
Definition shape (A : ndarray X) (n m : nat) : Prop :=
  length A = n /\ Forall (fun row => length row = m) A.

(** The entry at [(i, j)], read without a bounds check. *)
Definition cell (A : ndarray X) (i j : nat) : X := nth j (nth i A []) dflt.

Definition column (A : ndarray X) (j : nat) : list X :=
  map (fun row => nth j row dflt) A.

Fixpoint with_column (A : ndarray X) (j : nat) (c : list X) : ndarray X :=
  match A, c with
  | row :: A', x :: c' => list_set row j x :: with_column A' j c'
  | _, _ => []
  end.

Definition with_item (A : ndarray X) (i j : nat) (x : X) : ndarray X :=
  list_set A i (list_set (nth i A []) j x).

Lemma shape_row (A : ndarray X) (n m i : nat) :
  shape A n m -> (i < n)%nat -> length (nth i A []) = m.
Proof.
  intros [Hn Hm] Hi. rewrite Forall_forall in Hm. apply Hm, nth_In. lia.
Qed.

Lemma shape_repeat (z : X) (n m : nat) : shape (repeat (repeat z m) n) n m.
Proof.
  unfold shape. split.
  - apply repeat_length.
  - apply Forall_forall. intros row Hrow. apply repeat_spec in Hrow. subst row.
    apply repeat_length.
Qed.

Lemma getitem_ok (A : ndarray X) (n m i j : nat) :
  shape A n m -> (i < n)%nat -> (j < m)%nat -> getitem A i j = Ok (cell A i j).
Proof.
  intros HA Hi Hj. unfold getitem, cell.
  pose proof (shape_row A n m i HA Hi) as Hrow. destruct HA as [Hn _].
  rewrite (nth_error_nth' A [] (n := i)) by lia.
  rewrite (nth_error_nth' (nth i A []) dflt (n := j)) by lia. reflexivity.
Qed.

Lemma getitem_row_out_of_range (A : ndarray X) (n m i j : nat) :
  shape A n m -> (n <= i)%nat -> getitem A i j = Raise IndexError.
Proof.
  intros [Hn _] Hi. unfold getitem.
  destruct (nth_error A i) as [row |] eqn:E; [| reflexivity].
  assert (Hsome : nth_error A i <> None) by congruence.
  apply nth_error_Some in Hsome. lia.
Qed.

Lemma getitem_column_out_of_range (A : ndarray X) (n m i j : nat) :
  shape A n m -> (i < n)%nat -> (m <= j)%nat -> getitem A i j = Raise IndexError.
Proof.
  intros HA Hi Hj. pose proof (shape_row A n m i HA Hi) as Hrow.
  destruct HA as [Hn _]. unfold getitem.
  rewrite (nth_error_nth' A [] (n := i)) by lia.
  destruct (nth_error (nth i A []) j) as [x |] eqn:E; [| reflexivity].
  assert (Hsome : nth_error (nth i A []) j <> None) by congruence.
  apply nth_error_Some in Hsome. lia.
Qed.

Lemma setitem_ok (A : ndarray X) (n m i j : nat) (x : X) :
  shape A n m -> (i < n)%nat -> (j < m)%nat ->
  setitem A i j x = Ok (with_item A i j x).
Proof.
  intros HA Hi Hj. unfold setitem, with_item.
  pose proof (shape_row A n m i HA Hi) as Hrow. destruct HA as [Hn _].
  rewrite (nth_error_nth' A [] (n := i)) by lia. rewrite Hrow.
  destruct (Nat.ltb_spec j m); [reflexivity | lia].
Qed.

Lemma shape_with_item (A : ndarray X) (n m i j : nat) (x : X) :
  shape A n m -> (i < n)%nat -> shape (with_item A i j x) n m.
Proof.
  intros HA Hi. pose proof (shape_row A n m i HA Hi) as Hrow.
  destruct HA as [Hn Hm]. unfold with_item. split.
  - rewrite list_set_length. exact Hn.
  - rewrite Forall_forall in *. intros row Hin.
    destruct (In_nth _ _ [] Hin) as [k [Hk Ek]].
    rewrite list_set_length in Hk.
    destruct (Nat.eq_dec k i) as [-> | Hne].
    + rewrite nth_list_set_eq in Ek by lia. subst row.
      rewrite list_set_length. exact Hrow.
    + rewrite nth_list_set_ne in Ek by exact Hne. subst row.
      apply Hm, nth_In. exact Hk.
Qed.

Lemma cell_with_item_eq (A : ndarray X) (n m i j : nat) (x : X) :
  shape A n m -> (i < n)%nat -> (j < m)%nat -> cell (with_item A i j x) i j = x.
Proof.
  intros HA Hi Hj. pose proof (shape_row A n m i HA Hi) as Hrow.
  destruct HA as [Hn _]. unfold cell, with_item.
  rewrite nth_list_set_eq by lia. apply nth_list_set_eq. lia.
Qed.

Lemma cell_with_item_ne (A : ndarray X) (n m i j i' j' : nat) (x : X) :
  shape A n m -> (i < n)%nat -> (i' <> i \/ j' <> j) ->
  cell (with_item A i j x) i' j' = cell A i' j'.
Proof.
  intros [Hn _] Hi Hne. unfold cell, with_item.
  destruct (Nat.eq_dec i' i) as [-> | Hi'].
  - rewrite nth_list_set_eq by lia. apply nth_list_set_ne. lia.
  - rewrite nth_list_set_ne by exact Hi'. reflexivity.
Qed.

Lemma cell_repeat (n m i j : nat) : cell (repeat (repeat dflt m) n) i j = dflt.
Proof.
  unfold cell.
  destruct (Nat.lt_ge_cases i n) as [Hi | Hi].
  - rewrite (nth_indep _ [] (repeat dflt m)) by (rewrite repeat_length; exact Hi).
    rewrite nth_repeat. apply nth_repeat.
  - rewrite (nth_overflow (repeat (repeat dflt m) n))
      by (rewrite repeat_length; exact Hi).
    destruct j; reflexivity.
Qed.

Lemma column_length (A : ndarray X) (j : nat) : length (column A j) = length A.
Proof. apply length_map. Qed.

Lemma nth_column (A : ndarray X) (i j : nat) : nth i (column A j) dflt = cell A i j.
Proof.
  unfold column, cell.
  transitivity (nth i (map (fun row => nth j row dflt) A) (nth j [] dflt)).
  - f_equal. destruct j; reflexivity.
  - apply (map_nth (fun row => nth j row dflt)).
Qed.

Lemma getcol_ok (A : ndarray X) (n m j : nat) :
  shape A n m -> (j < m)%nat -> getcol A j = Ok (column A j).
Proof.
  intros [_ Hm] Hj. induction Hm as [| row A Hrow _ IH]; simpl.
  - reflexivity.
  - rewrite (nth_error_nth' row dflt (n := j)) by lia. rewrite IH. reflexivity.
Qed.

Lemma setcol_ok (A : ndarray X) (n m j : nat) (c : list X) :
  shape A n m -> (j < m)%nat -> length c = n ->
  setcol A j c = Ok (with_column A j c).
Proof.
  intros [Hn Hm] Hj. revert n c Hn.
  induction Hm as [| row A Hrow _ IH]; intros n c Hn Hc; simpl in *.
  - subst n. destruct c; [reflexivity | discriminate].
  - subst n. destruct c as [| x c]; [discriminate |]. simpl in Hc.
    rewrite Hrow. destruct (Nat.ltb_spec j m); [| lia].
    rewrite (IH (length A) c eq_refl ltac:(lia)). reflexivity.
Qed.

Lemma shape_with_column (A : ndarray X) (n m j : nat) (c : list X) :
  shape A n m -> length c = n -> shape (with_column A j c) n m.
Proof.
  intros [Hn Hm]. revert n c Hn.
  induction Hm as [| row A Hrow _ IH]; intros n c Hn Hc; simpl in *.
  - subst n. split; [reflexivity | constructor].
  - subst n. destruct c as [| x c]; [discriminate |]. simpl in Hc.
    destruct (IH (length A) c eq_refl ltac:(lia)) as [Hl Hf].
    split; simpl.
    + rewrite Hl. reflexivity.
    + constructor; [rewrite list_set_length; exact Hrow | exact Hf].
Qed.

Lemma cell_with_column (A : ndarray X) (n m i j j' : nat) (c : list X) :
  shape A n m -> length c = n -> (i < n)%nat -> (j < m)%nat ->
  cell (with_column A j c) i j'
  = if (j' =? j)%nat then nth i c dflt else cell A i j'.
Proof.
  intros [Hn Hm]. revert n c i Hn.
  induction Hm as [| row A Hrow _ IH]; intros n c i Hn Hc Hi Hj; simpl in *.
  - lia.
  - subst n. destruct c as [| x c]; [discriminate |]. simpl in Hc.
    destruct i as [| i].
    + unfold cell. simpl. destruct (Nat.eqb_spec j' j) as [-> | Hne].
      * apply nth_list_set_eq. lia.
      * apply nth_list_set_ne. exact Hne.
    + unfold cell in *. simpl. apply (IH (length A)); auto; lia.
Qed.

End Arrays.

Arguments shape {X} A n m.
Arguments cell {X} dflt A i j.
Arguments column {X} dflt A j.
Arguments with_column {X} A j c.
Arguments with_item {X} A i j x.

Section Elementwise.

Context {A : Arith}.

Lemma shape_zeros (n m : nat) : shape (zeros n m) n m.
Proof. apply shape_repeat. Qed.

Lemma cell_zeros (n m i j : nat) : cell (of_Z 0) (zeros n m) i j = of_Z 0.
Proof. apply cell_repeat. Qed.

Lemma zip_max_length (a b : list F) :
  length a = length b -> length (zip_max a b) = length a.
Proof.
  revert b. induction a as [| x a IH]; intros [| y b] H; simpl in *; try lia.
  rewrite IH; lia.
Qed.

Lemma nth_zip_max (a b : list F) (i : nat) (z : F) :
  length a = length b -> (i < length a)%nat ->
  nth i (zip_max a b) z = fmax (nth i a z) (nth i b z).
Proof.
  revert b i. induction a as [| x a IH]; intros [| y b] i H Hi; simpl in *; try lia.
  destruct i as [| i]; [reflexivity | apply IH; lia].
Qed.

Lemma maximum_ok (a b : list F) :
  length a = length b -> maximum a b = Ok (zip_max a b).
Proof.
  intro H. unfold maximum. rewrite H, Nat.eqb_refl. reflexivity.
Qed.

End Elementwise.

Example zeros_2_3 : zeros (A := real) 2 3 = [[0; 0; 0]; [0; 0; 0]].
Proof. reflexivity. Qed.

Example setitem_then_getitem :
  (M <- setitem (zeros (A := real) 2 2) 1 0 7 ;; getitem M 1 0) = Ok 7.
Proof. reflexivity. Qed.

Example getitem_out_of_range :
  getitem (zeros (A := real) 2 2) 2 0 = Raise IndexError.
Proof. reflexivity. Qed.

Example setitem_out_of_range :
  setitem (zeros (A := real) 2 2) 0 2 7 = Raise IndexError.
Proof. reflexivity. Qed.

Example getcol_reads_a_column : getcol [[1; 2]; [3; 4]] 1 = Ok [2; 4].
Proof. reflexivity. Qed.

Example setcol_writes_a_column :
  setcol [[1; 2]; [3; 4]] 0 [5; 6] = Ok [[5; 2]; [6; 4]].
Proof. reflexivity. Qed.

End NpFacts.

(* ===================================================================== *)
(** * The binomial pricer: lemmas for every arithmetic                    *)
(* ===================================================================== *)

Module BinomialTreeLemmas.

Import BinomialTree PyFacts FloatFacts NpFacts.

Section AnyArithmetic.

Context {A : Arith}.

(** No power of the stock tree overflows: the exponents of [u] and of [d]
    run over 0 .. N. *)
Definition powers_fit (u d : F) (N : nat) : Prop :=
  forall n, (n <= N)%nat ->
    pow_overflows u n = false /\ pow_overflows d n = false.

(** The stock tree, cell by cell, when no power overflows: the lattice value
    on and above the diagonal and the initial zero below it. *)
Lemma BiTree_Construction_cells (S0 u d : F) (N : nat) :
  powers_fit u d N ->
  exists stock_tree,
    BiTree_Construction S0 u d N = Ok stock_tree /\
    shape stock_tree (N + 1) (N + 1) /\
    forall i j, (j <= N)%nat ->
      cell (of_Z 0) stock_tree i j
      = if (i <=? j)%nat then spec_stock S0 u d i j else of_Z 0.
Proof.
  intro Hfit. unfold BiTree_Construction. rewrite range_from_zero.
  destruct (for_each_seq_invariant
    (fun j st => shape st (N + 1) (N + 1) /\
                 forall i j',
                   cell (of_Z 0) st i j'
                   = if ((j' <? j) && (i <=? j'))%nat
                     then spec_stock S0 u d i j' else of_Z 0)
    (fun j stock_tree =>
       for_each (range 0 (j + 1))
         (fun i stock_tree =>
            up <- pow_int u (j - i) ;;
            down <- pow_int d i ;;
            setitem stock_tree i j (fmul (fmul S0 up) down))
         stock_tree)
    (N + 1) 0 (zeros (N + 1) (N + 1))) as [st [Est [Hsh Hst]]].
  - split; [apply shape_zeros |]. intros i j'. rewrite cell_zeros.
    reflexivity.
  - intros j t Hj [Hsh Hdone]. rewrite range_from_zero.
    destruct (for_each_seq_invariant
      (fun i st => shape st (N + 1) (N + 1) /\
                   forall i' j',
                     cell (of_Z 0) st i' j' =
                     if ((j' <? j) && (i' <=? j') || (j' =? j) && (i' <? i))%nat
                     then spec_stock S0 u d i' j' else of_Z 0)
      (fun i stock_tree =>
         up <- pow_int u (j - i) ;;
         down <- pow_int d i ;;
         setitem stock_tree i j (fmul (fmul S0 up) down))
      (j + 1) 0 t) as [t' [Et' [Hsh' Hcells]]].
    + split; [exact Hsh |]. intros i' j'. rewrite Hdone.
      replace (i' <? 0)%nat with false by (symmetry; apply Nat.ltb_ge; lia).
      rewrite andb_false_r, orb_false_r. reflexivity.
    + intros i s Hi [Hs Hc].
      rewrite (pow_int_ok u (j - i)) by (apply Hfit; lia). simpl.
      rewrite (pow_int_ok d i) by (apply Hfit; lia). simpl.
      exists (with_item s i j (fmul (fmul S0 (fpow u (j - i))) (fpow d i))).
      split; [apply (setitem_ok _ s (N + 1) (N + 1)); auto; lia |].
      split; [apply shape_with_item; auto; lia |].
      intros i' j'.
      destruct (Nat.eq_dec i' i) as [-> | Hi'];
        [destruct (Nat.eq_dec j' j) as [-> | Hj'] |].
      * rewrite (cell_with_item_eq _ (of_Z 0) s (N + 1) (N + 1)) by (auto; lia).
        rewrite Nat.eqb_refl.
        replace (i <? S i)%nat with true by (symmetry; apply Nat.ltb_lt; lia).
        rewrite orb_true_r. reflexivity.
      * rewrite (cell_with_item_ne _ (of_Z 0) s (N + 1) (N + 1)) by (auto; lia).
        rewrite Hc.
        replace (j' =? j)%nat with false by (symmetry; apply Nat.eqb_neq; lia).
        reflexivity.
      * rewrite (cell_with_item_ne _ (of_Z 0) s (N + 1) (N + 1)) by (auto; lia).
        rewrite Hc.
        replace (i' <? S i)%nat with (i' <? i)%nat; [reflexivity |].
        destruct (Nat.ltb_spec i' i), (Nat.ltb_spec i' (S i)); auto; lia.
    + exists t'. split; [exact Et' |]. split; [exact Hsh' |].
      intros i j'. rewrite Hcells. f_equal.
      destruct (Nat.ltb_spec j' j), (Nat.ltb_spec j' (S j)),
        (Nat.eqb_spec j' j), (Nat.leb_spec i j'), (Nat.ltb_spec i (0 + (j + 1)));
        simpl; auto; lia.
  - exists st. split; [exact Est |]. split; [exact Hsh |].
    intros i j Hj. rewrite Hst.
    replace (j <? 0 + (N + 1))%nat with true by (symmetry; apply Nat.ltb_lt; lia).
    reflexivity.
Qed.

(** Conversely the block returns only if no power overflowed. *)
Lemma BiTree_Construction_returned (S0 u d : F) (N : nat) (stock_tree : ndarray F) :
  BiTree_Construction S0 u d N = Ok stock_tree -> powers_fit u d N.
Proof.
  unfold BiTree_Construction. rewrite range_from_zero. intro E.
  assert (Hall : forall n, (n < 0 + (N + 1))%nat ->
            pow_overflows u n = false /\ pow_overflows d n = false).
  { revert E.
    apply (for_each_seq_returned
             (fun j (_ : ndarray F) =>
                forall n, (n < j)%nat ->
                  pow_overflows u n = false /\ pow_overflows d n = false)).
    - intros n Hn. lia.
    - intros j t t' Hj _ Ecol. rewrite range_from_zero in Ecol.
      assert (Hcol : forall i', (i' < 0 + (j + 1))%nat ->
                pow_overflows u (j - i') = false /\ pow_overflows d i' = false).
      { revert Ecol.
        apply (for_each_seq_returned
                 (fun i (_ : ndarray F) =>
                    forall i', (i' < i)%nat ->
                      pow_overflows u (j - i') = false
                      /\ pow_overflows d i' = false)).
        - intros i' Hi'. lia.
        - intros i s s' Hi Hprev Estep i' Hi'.
          destruct (pow_int u (j - i)) as [up |] eqn:Eu; [| discriminate].
          simpl in Estep.
          destruct (pow_int d i) as [down |] eqn:Ed; [| discriminate].
          apply pow_int_returned in Eu. apply pow_int_returned in Ed.
          destruct (Nat.eq_dec i' i) as [-> | Hne].
          + split; [apply Eu | apply Ed].
          + apply Hprev. lia. }
      intros m Hm. split.
      + replace m with (j - (j - m))%nat by lia. apply Hcol. lia.
      + apply Hcol. lia. }
  intros n Hn. apply Hall. lia.
Qed.

(** The 'call' and the 'put' branch of [AmericanOption] differ only in the
    exercise value, [stock - K] or [K - stock]; [option_branch] is their
    common shape, with the exercise value of a column as a parameter. *)
Definition option_branch (stock_tree : ndarray F) (a p : F) (N : nat)
  (exercise : list F -> list F) (option_tree : ndarray F) : result (ndarray F) :=
  last <- getcol stock_tree N ;;
  option_tree <- setcol option_tree N (maximum_scalar (of_Z 0) (exercise last)) ;;
  for_each (range_down N)
    (fun j option_tree =>
       option_tree <-
         for_each (range 0 (j + 1))
           (fun i option_tree =>
              disc <- truediv (of_Z 1) a ;;
              up <- getitem option_tree i (j + 1) ;;
              down <- getitem option_tree (i + 1) (j + 1) ;;
              setitem option_tree i j
                (fmul disc (fadd (fmul p up) (fmul (fsub (of_Z 1) p) down))))
           option_tree ;;
       held <- getcol option_tree j ;;
       stock <- getcol stock_tree j ;;
       floored <- maximum held (exercise stock) ;;
       setcol option_tree j floored)
    option_tree.

(** A branch followed by the rest of the function is [option_branch]
    followed by it. *)
Lemma option_branch_then {B : Type} (stock_tree : ndarray F) (a p : F) (N : nat)
  (exercise : list F -> list F) (option_tree : ndarray F)
  (rest : ndarray F -> result B) :
  (last <- getcol stock_tree N ;;
   option_tree <- setcol option_tree N (maximum_scalar (of_Z 0) (exercise last)) ;;
   option_tree <-
     for_each (range_down N)
       (fun j option_tree =>
          option_tree <-
            for_each (range 0 (j + 1))
              (fun i option_tree =>
                 disc <- truediv (of_Z 1) a ;;
                 up <- getitem option_tree i (j + 1) ;;
                 down <- getitem option_tree (i + 1) (j + 1) ;;
                 setitem option_tree i j
                   (fmul disc (fadd (fmul p up) (fmul (fsub (of_Z 1) p) down))))
              option_tree ;;
          held <- getcol option_tree j ;;
          stock <- getcol stock_tree j ;;
          floored <- maximum held (exercise stock) ;;
          setcol option_tree j floored)
       option_tree ;;
   rest option_tree)
  = (option_tree <- option_branch stock_tree a p N exercise option_tree ;;
     rest option_tree).
Proof.
  unfold option_branch.
  destruct (getcol stock_tree N) as [last | e]; [| reflexivity]. simpl.
  destruct (setcol option_tree N (maximum_scalar (of_Z 0) (exercise last)));
    reflexivity.
Qed.

(** The exercise value on a whole column, as each branch writes it. *)
Definition exercise_column (k : kind) (K : F) (c : list F) : list F :=
  match k with
  | call => sub_scalar c K
  | put => rsub_scalar K c
  end.

Lemma exercise_column_length (k : kind) (K : F) (c : list F) :
  length (exercise_column k K c) = length c.
Proof. destruct k; apply length_map. Qed.

Lemma nth_exercise_column (k : kind) (K : F) (c : list F) (i : nat) (z : F) :
  (i < length c)%nat ->
  nth i (exercise_column k K c) z = spec_exercise k K (nth i c z).
Proof.
  intro Hi. destruct k; simpl; unfold sub_scalar, rsub_scalar.
  - apply (nth_map_in_range (fun x => fsub x K) c i z z Hi).
  - apply (nth_map_in_range (fun x => fsub K x) c i z z Hi).
Qed.

Section BackwardInduction.

Variables (k : kind) (S0 K u d a p : F) (N : nat) (stock_tree : ndarray F).
Hypothesis stock_shape : shape stock_tree (N + 1) (N + 1).
Hypothesis stock_cells :
  forall i j, (i <= j <= N)%nat ->
    cell (of_Z 0) stock_tree i j = spec_stock S0 u d i j.

Let value (i j : nat) : F := spec_option k S0 K u d a p (N - j) i j.

(** Columns [j .. N] of the option tree hold the lattice values. *)
Let filled (j : nat) (option_tree : ndarray F) : Prop :=
  shape option_tree (N + 1) (N + 1) /\
  forall i j', (j <= j' <= N)%nat -> (i <= j')%nat ->
    cell (of_Z 0) option_tree i j' = value i j'.

Lemma terminal_column_filled :
  filled N (with_column (zeros (N + 1) (N + 1)) N
              (maximum_scalar (of_Z 0)
                 (exercise_column k K (column (of_Z 0) stock_tree N)))).
Proof.
  assert (Hlen : length (maximum_scalar (of_Z 0)
                           (exercise_column k K (column (of_Z 0) stock_tree N)))
                 = (N + 1)%nat).
  { unfold maximum_scalar. rewrite length_map, exercise_column_length, column_length.
    apply stock_shape. }
  split.
  - apply shape_with_column; [apply shape_zeros | exact Hlen].
  - intros i j' Hj' Hi. assert (j' = N) by lia. subst j'.
    rewrite (cell_with_column _ (of_Z 0) _ (N + 1) (N + 1))
      by (auto using shape_zeros; lia).
    rewrite Nat.eqb_refl. unfold maximum_scalar.
    rewrite (nth_map_in_range _ _ i (of_Z 0) (of_Z 0))
      by (rewrite exercise_column_length, column_length;
          destruct stock_shape as [-> _]; lia).
    rewrite nth_exercise_column
      by (rewrite column_length; destruct stock_shape as [-> _]; lia).
    rewrite nth_column, stock_cells by lia.
    unfold value. rewrite Nat.sub_diag. reflexivity.
Qed.

Hypothesis a_nonzero : is_zero a = false.

Lemma induction_step_filled (j : nat) (option_tree : ndarray F) :
  (j < N)%nat -> filled (S j) option_tree ->
  exists option_tree',
    (option_tree1 <-
       for_each (range 0 (j + 1))
         (fun i option_tree =>
            disc <- truediv (of_Z 1) a ;;
            up <- getitem option_tree i (j + 1) ;;
            down <- getitem option_tree (i + 1) (j + 1) ;;
            setitem option_tree i j
              (fmul disc (fadd (fmul p up) (fmul (fsub (of_Z 1) p) down))))
         option_tree ;;
     held <- getcol option_tree1 j ;;
     stock <- getcol stock_tree j ;;
     floored <- maximum held (exercise_column k K stock) ;;
     setcol option_tree1 j floored) = Ok option_tree' /\
    filled j option_tree'.
Proof.
  intros Hj [Hsh Hval]. rewrite range_from_zero.
  destruct (for_each_seq_invariant
    (fun i ot => filled (S j) ot /\
                 forall i', (i' < i)%nat ->
                   cell (of_Z 0) ot i' j
                   = fmul (fdiv (of_Z 1) a)
                       (fadd (fmul p (value i' (S j)))
                             (fmul (fsub (of_Z 1) p) (value (S i') (S j)))))
    (fun i option_tree =>
       disc <- truediv (of_Z 1) a ;;
       up <- getitem option_tree i (j + 1) ;;
       down <- getitem option_tree (i + 1) (j + 1) ;;
       setitem option_tree i j
         (fmul disc (fadd (fmul p up) (fmul (fsub (of_Z 1) p) down))))
    (j + 1) 0 option_tree) as [ot [Eot [[Hsh1 Hval1] Hcont]]].
  - split; [split; assumption | intros; lia].
  - intros i t Hi [[Hs Hv] Hc].
    rewrite truediv_ok by exact a_nonzero. simpl.
    rewrite (getitem_ok _ (of_Z 0) t (N + 1) (N + 1)) by (auto; lia). simpl.
    rewrite (getitem_ok _ (of_Z 0) t (N + 1) (N + 1)) by (auto; lia). simpl.
    rewrite (setitem_ok _ t (N + 1) (N + 1)) by (auto; lia).
    eexists. split; [reflexivity |]. split; [split |].
    + apply shape_with_item; [exact Hs | lia].
    + intros i' j' Hj' Hi'.
      rewrite (cell_with_item_ne _ (of_Z 0) t (N + 1) (N + 1)) by (auto; lia).
      apply Hv; assumption.
    + intros i' Hi'. destruct (Nat.eq_dec i' i) as [-> | Hne].
      * rewrite (cell_with_item_eq _ (of_Z 0) t (N + 1) (N + 1)) by (auto; lia).
        replace (j + 1)%nat with (S j) by lia. replace (i + 1)%nat with (S i) by lia.
        rewrite !Hv by lia. reflexivity.
      * rewrite (cell_with_item_ne _ (of_Z 0) t (N + 1) (N + 1)) by (auto; lia).
        apply Hc. lia.
  - rewrite Eot. simpl.
    rewrite (getcol_ok _ (of_Z 0) ot (N + 1) (N + 1)) by (auto; lia). simpl.
    rewrite (getcol_ok _ (of_Z 0) stock_tree (N + 1) (N + 1)) by (auto; lia). simpl.
    assert (Hl1 : length (column (of_Z 0) ot j) = (N + 1)%nat)
      by (rewrite column_length; apply Hsh1).
    assert (Hl2 : length (column (of_Z 0) stock_tree j) = (N + 1)%nat)
      by (rewrite column_length; apply stock_shape).
    assert (Hl3 : length (exercise_column k K (column (of_Z 0) stock_tree j))
                  = (N + 1)%nat)
      by (rewrite exercise_column_length; exact Hl2).
    rewrite maximum_ok by lia. simpl.
    assert (Hl4 : length (zip_max (column (of_Z 0) ot j)
                            (exercise_column k K (column (of_Z 0) stock_tree j)))
                  = (N + 1)%nat) by (rewrite zip_max_length; lia).
    rewrite (setcol_ok _ ot (N + 1) (N + 1)) by (auto; lia).
    eexists. split; [reflexivity |]. split.
    + apply shape_with_column; assumption.
    + intros i j' Hj' Hi.
      rewrite (cell_with_column _ (of_Z 0) ot (N + 1) (N + 1)) by (auto; lia).
      destruct (Nat.eqb_spec j' j) as [-> | Hne].
      * rewrite nth_zip_max by lia.
        rewrite nth_exercise_column by lia.
        rewrite !nth_column, stock_cells by lia.
        rewrite Hcont by lia.
        unfold value. replace (N - j)%nat with (S (N - S j)) by lia.
        reflexivity.
      * apply Hval1; lia.
Qed.

Lemma option_branch_ok :
  exists option_tree,
    option_branch stock_tree a p N (exercise_column k K) (zeros (N + 1) (N + 1))
      = Ok option_tree /\
    shape option_tree (N + 1) (N + 1) /\
    cell (of_Z 0) option_tree 0 0 = spec_option k S0 K u d a p N 0 0.
Proof.
  unfold option_branch.
  rewrite (getcol_ok _ (of_Z 0) stock_tree (N + 1) (N + 1)) by (auto; lia). simpl.
  rewrite (setcol_ok _ (zeros (N + 1) (N + 1)) (N + 1) (N + 1)).
  2: apply shape_zeros.
  2: lia.
  2: { unfold maximum_scalar. rewrite length_map, exercise_column_length, column_length.
       apply stock_shape. }
  simpl.
  destruct (for_each_range_down_invariant filled
    (fun j option_tree =>
       option_tree <-
         for_each (range 0 (j + 1))
           (fun i option_tree =>
              disc <- truediv (of_Z 1) a ;;
              up <- getitem option_tree i (j + 1) ;;
              down <- getitem option_tree (i + 1) (j + 1) ;;
              setitem option_tree i j
                (fmul disc (fadd (fmul p up) (fmul (fsub (of_Z 1) p) down))))
           option_tree ;;
       held <- getcol option_tree j ;;
       stock <- getcol stock_tree j ;;
       floored <- maximum held (exercise_column k K stock) ;;
       setcol option_tree j floored)
    N _ terminal_column_filled) as [ot [Eot [Hsh Hval]]].
  - intros j t Hj Hf. apply induction_step_filled; assumption.
  - exists ot. split; [exact Eot |]. split; [exact Hsh |].
    rewrite Hval by lia. unfold value. rewrite Nat.sub_0_r. reflexivity.
Qed.

End BackwardInduction.

(** With at least one step and a discount factor [a] equal to zero, the first
    cell of the backward induction raises at [1 / a]. *)
Lemma option_branch_zero_discount (stock_tree : ndarray F) (a p : F) (N : nat)
  (exercise : list F -> list F) :
  shape stock_tree (N + 1) (N + 1) -> (1 <= N)%nat ->
  (forall c, length (exercise c) = length c) ->
  is_zero a = true ->
  option_branch stock_tree a p N exercise (zeros (N + 1) (N + 1))
  = Raise ZeroDivisionError.
Proof.
  intros Hsh HN Hex Ha. unfold option_branch.
  rewrite (getcol_ok _ (of_Z 0) stock_tree (N + 1) (N + 1)) by (auto; lia). simpl.
  rewrite (setcol_ok _ (zeros (N + 1) (N + 1)) (N + 1) (N + 1)).
  2: apply shape_zeros.
  2: lia.
  2: { unfold maximum_scalar. rewrite length_map, Hex, column_length.
       apply Hsh. }
  simpl. destruct N as [| n]; [lia |].
  unfold range_down. rewrite seq_S, rev_app_distr. simpl.
  rewrite range_from_zero. replace (n + 1)%nat with (S n) by lia. simpl.
  rewrite truediv_by_zero by exact Ha. reflexivity.
Qed.

End AnyArithmetic.

Section WholeFunction.

Context {A : Arith}.

(** What the parameter block did when it returned. *)
Lemma BiTree_Parameters_returned (T v r q : F) (N : nat) (prm : BiTreeParameters) :
  BiTree_Parameters T v r q N = Ok prm ->
  (1 <= N)%nat /\
  dt prm = fdiv T (of_Z (Z.of_nat N)) /\
  is_negative (dt prm) = false /\
  exp_overflows (fmul v (fsqrt (dt prm))) = false /\
  u prm = fexp (fmul v (fsqrt (dt prm))) /\
  is_zero (u prm) = false /\
  d prm = fdiv (of_Z 1) (u prm) /\
  exp_overflows (fmul (fsub r q) (dt prm)) = false /\
  a prm = fexp (fmul (fsub r q) (dt prm)) /\
  is_zero (fsub (u prm) (d prm)) = false /\
  p prm = fdiv (fsub (a prm) (d prm)) (fsub (u prm) (d prm)).
Proof.
  unfold BiTree_Parameters, truediv_int, math_sqrt, math_exp, truediv.
  destruct (Nat.eqb_spec N 0) as [HN | HN]; [discriminate |]. simpl.
  destruct (is_negative (fdiv T (of_Z (Z.of_nat N)))) eqn:E1; [discriminate |].
  simpl.
  destruct (exp_overflows (fmul v (fsqrt (fdiv T (of_Z (Z.of_nat N))))))
    eqn:E2; [discriminate |].
  simpl.
  destruct (is_zero (fexp (fmul v (fsqrt (fdiv T (of_Z (Z.of_nat N)))))))
    eqn:E3; [discriminate |].
  simpl.
  destruct (exp_overflows (fmul (fsub r q) (fdiv T (of_Z (Z.of_nat N)))))
    eqn:E4; [discriminate |].
  simpl.
  match goal with
  | |- context [is_zero (fsub ?x ?y)] => destruct (is_zero (fsub x y)) eqn:E5
  end; [discriminate |].
  simpl. intro E. injection E as <-. simpl.
  repeat split; try assumption; try reflexivity. lia.
Qed.

(** The converse: the block returns when no test fires. *)
Lemma BiTree_Parameters_ok (T v r q : F) (N : nat) :
  let dt := fdiv T (of_Z (Z.of_nat N)) in
  let u := fexp (fmul v (fsqrt dt)) in
  let d := fdiv (of_Z 1) u in
  let a := fexp (fmul (fsub r q) dt) in
  (1 <= N)%nat ->
  is_negative dt = false ->
  exp_overflows (fmul v (fsqrt dt)) = false ->
  is_zero u = false ->
  exp_overflows (fmul (fsub r q) dt) = false ->
  is_zero (fsub u d) = false ->
  BiTree_Parameters T v r q N
  = Ok {| dt := dt; u := u; d := d; a := a;
          p := fdiv (fsub a d) (fsub u d) |}.
Proof.
  intros dt0 u0 d0 a0 HN H1 H2 H3 H4 H5. subst dt0 u0 d0 a0.
  unfold BiTree_Parameters, truediv_int, math_sqrt, math_exp, truediv.
  destruct (Nat.eqb_spec N 0) as [HN0 | _]; [lia |]. simpl.
  rewrite H1. simpl. rewrite H2. simpl. rewrite H3. simpl.
  rewrite H4. simpl. rewrite H5. reflexivity.
Qed.

(** The price: when the parameter block returns, no power of the stock tree
    overflows and [a] is not zero, the function returns the root of the
    lattice. *)
Lemma AmericanOption_value (S0 K T v r q : F) (N : nat) (k : kind)
  (prm : BiTreeParameters) :
  BiTree_Parameters T v r q N = Ok prm ->
  powers_fit (u prm) (d prm) N ->
  is_zero (a prm) = false ->
  AmericanOption S0 K T v r q N (kind_name k)
  = Ok (Return []
          (spec_option k S0 K (u prm) (d prm) (a prm) (p prm) N 0 0)).
Proof.
  intros Eprm Hfit Ha. unfold AmericanOption. rewrite Eprm. simpl.
  destruct (BiTree_Construction_cells S0 (u prm) (d prm) N Hfit)
    as [st [Est [Hshape Hcells]]].
  rewrite Est. simpl.
  assert (Hcells' : forall i j, (i <= j <= N)%nat ->
            cell (of_Z 0) st i j = spec_stock S0 (u prm) (d prm) i j).
  { intros i j Hij. rewrite Hcells by lia.
    destruct (Nat.leb_spec i j); [reflexivity | lia]. }
  destruct (option_branch_ok k S0 K (u prm) (d prm) (a prm) (p prm) N st
              Hshape Hcells' Ha) as [ot [Eot [Hot Hroot]]].
  transitivity
    (option_tree <- option_branch st (a prm) (p prm) N
                      (exercise_column k K) (zeros (N + 1) (N + 1)) ;;
     price <- getitem option_tree 0 0 ;;
     Ok (Return [] price)).
  - destruct k; apply option_branch_then.
  - rewrite Eot. simpl.
    rewrite (getitem_ok _ (of_Z 0) ot (N + 1) (N + 1)) by (auto; lia). simpl.
    rewrite Hroot. reflexivity.
Qed.

(** The converse: if the function returned for 'call' or 'put', the parameter
    block returned, no power overflowed, [a] is not zero, and the value is
    the root of the lattice. *)
Lemma AmericanOption_returned (S0 K T v r q : F) (N : nat) (k : kind)
  (o : outcome F) :
  AmericanOption S0 K T v r q N (kind_name k) = Ok o ->
  exists prm,
    BiTree_Parameters T v r q N = Ok prm /\
    powers_fit (u prm) (d prm) N /\
    is_zero (a prm) = false /\
    o = Return [] (spec_option k S0 K (u prm) (d prm) (a prm) (p prm) N 0 0).
Proof.
  intro E.
  destruct (BiTree_Parameters T v r q N) as [prm | e] eqn:Eprm.
  2: { unfold AmericanOption in E. rewrite Eprm in E. discriminate. }
  destruct (BiTree_Construction S0 (u prm) (d prm) N) as [st | e] eqn:Est.
  2: { unfold AmericanOption in E. rewrite Eprm in E. simpl in E.
       rewrite Est in E. discriminate. }
  pose proof (BiTree_Construction_returned _ _ _ _ _ Est) as Hfit.
  destruct (is_zero (a prm)) eqn:Ha.
  - exfalso.
    pose proof (BiTree_Parameters_returned _ _ _ _ _ _ Eprm) as [HN _].
    destruct (BiTree_Construction_cells S0 (u prm) (d prm) N Hfit)
      as [st' [Est' [Hshape _]]].
    rewrite Est in Est'. injection Est' as <-.
    assert (Eb : AmericanOption S0 K T v r q N (kind_name k)
                 = (option_tree <- option_branch st (a prm) (p prm) N
                                     (exercise_column k K) (zeros (N + 1) (N + 1)) ;;
                    price <- getitem option_tree 0 0 ;;
                    Ok (Return [] price))).
    { unfold AmericanOption. rewrite Eprm. simpl. rewrite Est. simpl.
      destruct k; apply option_branch_then. }
    rewrite Eb in E.
    rewrite (option_branch_zero_discount st (a prm) (p prm) N
               (exercise_column k K) Hshape HN
               (exercise_column_length k K) Ha) in E.
    discriminate.
  - exists prm. split; [reflexivity |]. split; [exact Hfit |].
    split; [exact Ha |].
    rewrite (AmericanOption_value S0 K T v r q N k prm Eprm Hfit Ha) in E.
    injection E as <-. reflexivity.
Qed.

(** An option type that is neither 'call' nor 'put' is looked at after the
    parameters and the stock tree: the function is those two blocks followed
    by the diagnostic and the sentinel. *)
Lemma AmericanOption_other_kind (S0 K T v r q : F) (N : nat) (CallorPut : string) :
  CallorPut <> "call"%string -> CallorPut <> "put"%string ->
  AmericanOption S0 K T v r q N CallorPut
  = (prm <- BiTree_Parameters T v r q N ;;
     stock_tree <- BiTree_Construction S0 (u prm) (d prm) N ;;
     Ok (Return [diagnostic] (of_Z (-1)))).
Proof.
  intros Hc Hp. unfold AmericanOption.
  destruct (BiTree_Parameters T v r q N) as [prm | e]; [| reflexivity]. simpl.
  destruct (BiTree_Construction S0 (u prm) (d prm) N) as [st | e];
    [| reflexivity].
  simpl.
  destruct (String.eqb_spec CallorPut "call"); [contradiction |].
  destruct (String.eqb_spec CallorPut "put"); [contradiction |].
  reflexivity.
Qed.

(** A step count of zero stops the pricer at [T / N]. *)
Lemma AmericanOption_zero_steps (S0 K T v r q : F) (CallorPut : string) :
  AmericanOption S0 K T v r q 0 CallorPut = Raise ZeroDivisionError.
Proof. reflexivity. Qed.

(** One step: the root is the discounted expectation of the two terminal
    payoffs, floored by the exercise value at the root. *)
Example spec_option_one_step (k : kind) (S0 K u d a p : F) :
  spec_option k S0 K u d a p 1 0 0
  = fmax (fmul (fdiv (of_Z 1) a)
            (fadd (fmul p (fmax (of_Z 0)
                             (spec_exercise k K
                                (fmul (fmul S0 (fpow u 1)) (fpow d 0)))))
                  (fmul (fsub (of_Z 1) p)
                        (fmax (of_Z 0)
                           (spec_exercise k K
                              (fmul (fmul S0 (fpow u 0)) (fpow d 1)))))))
         (spec_exercise k K (fmul (fmul S0 (fpow u 0)) (fpow d 0))).
Proof. reflexivity. Qed.

End WholeFunction.

End BinomialTreeLemmas.

(* ===================================================================== *)
(** * The real arithmetic: lemmas                                         *)
(* ===================================================================== *)

Module RealFloatFacts.

Import BinomialTree PyFacts FloatFacts NpFacts BinomialTreeLemmas.

Lemma real_is_zero_false (x : R) : x <> 0 -> is_zero (Arith := real) x = false.
Proof. intro H. simpl. destruct (Req_dec_T x 0); [contradiction | reflexivity]. Qed.

Lemma real_is_zero_true (x : R) : x = 0 -> is_zero (Arith := real) x = true.
Proof. intro H. simpl. destruct (Req_dec_T x 0); [reflexivity | contradiction]. Qed.

Lemma real_is_zero_inv (x : R) : is_zero (Arith := real) x = false -> x <> 0.
Proof. simpl. destruct (Req_dec_T x 0); [discriminate | auto]. Qed.

Lemma real_is_negative_false (x : R) : 0 <= x -> is_negative (Arith := real) x = false.
Proof. intro H. simpl. destruct (Rlt_dec x 0); [lra | reflexivity]. Qed.

Lemma real_is_negative_inv (x : R) : is_negative (Arith := real) x = false -> 0 <= x.
Proof. simpl. destruct (Rlt_dec x 0); [discriminate | lra]. Qed.

Lemma real_exp_fits (x : R) :
  exp x <= float_max -> exp_overflows (Arith := real) x = false.
Proof. intro H. simpl. destruct (Rlt_dec float_max (exp x)); [lra | reflexivity]. Qed.

Lemma real_exp_too_large (x : R) :
  float_max < exp x -> exp_overflows (Arith := real) x = true.
Proof. intro H. simpl. destruct (Rlt_dec float_max (exp x)); [reflexivity | lra]. Qed.

Lemma real_pow_fits (x : R) (n : nat) :
  Rabs (x ^ n) <= float_max -> pow_overflows (Arith := real) x n = false.
Proof.
  intro H. simpl. destruct (Rlt_dec float_max (Rabs (x ^ n))); [lra | reflexivity].
Qed.

(** The largest double lies between 10^300 and 2^1024. *)
Lemma float_max_above : 10 ^ 300 <= float_max.
Proof.
  unfold float_max. rewrite (pow_IZR 10 300).
  apply IZR_le. vm_compute. discriminate.
Qed.

Lemma float_max_below : float_max < 2 ^ 1024.
Proof.
  unfold float_max. rewrite (pow_IZR 2 1024).
  apply IZR_lt. vm_compute. reflexivity.
Qed.

Lemma float_max_ge_9 : 9 <= float_max.
Proof.
  unfold float_max. apply IZR_le. vm_compute. discriminate.
Qed.

(** exp(n/2) = exp(1/2)^n, and exp(1/2) > 3/2. *)
Lemma exp_half_steps (n : nat) : exp (INR n / 2) = exp (1 / 2) ^ n.
Proof.
  induction n as [| n IH].
  - simpl. unfold Rdiv. rewrite Rmult_0_l. apply exp_0.
  - rewrite S_INR.
    replace ((INR n + 1) / 2) with (1 / 2 + INR n / 2) by field.
    rewrite exp_plus, IH. reflexivity.
Qed.

Lemma exp_1000_overflows : float_max < exp 1000.
Proof.
  replace 1000 with (INR 2000 / 2)
    by (rewrite INR_IZR_INZ; simpl; field).
  rewrite exp_half_steps.
  assert (Hhalf : 3 / 2 <= exp (1 / 2))
    by (left; replace (3 / 2) with (1 + 1 / 2) by field; apply exp_ineq1; lra).
  apply Rlt_le_trans with ((3 / 2) ^ 2000).
  - apply Rlt_trans with (2 ^ 1024); [apply float_max_below |].
    apply (Rmult_lt_reg_r (2 ^ 2000)); [apply pow_lt; lra |].
    rewrite <- Rpow_mult_distr.
    replace (3 / 2 * 2) with 3 by field.
    rewrite <- pow_add.
    rewrite (pow_IZR 2 (1024 + 2000)), (pow_IZR 3 2000).
    apply IZR_lt. vm_compute. reflexivity.
  - apply pow_incr. lra.
Qed.

Section StepParameters.

Variables (T v r q : R) (N : nat).
Hypothesis T_pos : 0 < T.
Hypothesis v_pos : 0 < v.
Hypothesis N_pos : (1 <= N)%nat.

Lemma INR_N_pos : 0 < INR N.
Proof. apply lt_0_INR. lia. Qed.

Lemma spec_dt_pos : 0 < spec_dt T N.
Proof. unfold spec_dt. apply Rdiv_lt_0_compat; [exact T_pos | exact INR_N_pos]. Qed.

Lemma spec_u_gt_1 : 1 < spec_u T v N.
Proof.
  unfold spec_u. rewrite <- exp_0. apply exp_increasing.
  apply Rmult_lt_0_compat; [exact v_pos |]. apply sqrt_lt_R0, spec_dt_pos.
Qed.

Lemma spec_d_bounds : 0 < spec_d T v N < 1.
Proof.
  pose proof spec_u_gt_1 as Hu. unfold spec_d. split.
  - apply Rdiv_lt_0_compat; lra.
  - apply (Rmult_lt_reg_r (spec_u T v N)); [lra |]. field_simplify; lra.
Qed.

Lemma spec_a_pos : 0 < spec_a T r q N.
Proof. unfold spec_a. apply exp_pos. Qed.

(** In real arithmetic the parameter block returns as soon as the two
    exponentials fit in a double. *)
Lemma BiTree_Parameters_real_ok :
  spec_u T v N <= float_max -> spec_a T r q N <= float_max ->
  BiTree_Parameters (A := real) T v r q N =
  Ok (spec_parameters T v r q N).
Proof.
  intros Hu_fit Ha_fit.
  pose proof INR_N_pos as HN. pose proof spec_dt_pos as Hdt.
  pose proof spec_u_gt_1 as Hu. pose proof spec_d_bounds as Hd.
  assert (EN : IZR (Z.of_nat N) = INR N) by (symmetry; apply INR_IZR_INZ).
  pose proof (BiTree_Parameters_ok (A := real) T v r q N) as Hok.
  cbv zeta in Hok. simpl in Hok. rewrite EN in Hok.
  fold (spec_dt T N) in Hok. fold (spec_u T v N) in Hok.
  fold (spec_d T v N) in Hok. fold (spec_a T r q N) in Hok.
  fold (spec_p T v r q N) in Hok.
  unfold spec_parameters. apply Hok.
  - exact N_pos.
  - destruct (Rlt_dec (spec_dt T N) 0); [lra | reflexivity].
  - destruct (Rlt_dec float_max (spec_u T v N)); [lra | reflexivity].
  - destruct (Req_dec_T (spec_u T v N) 0); [lra | reflexivity].
  - destruct (Rlt_dec float_max (spec_a T r q N)); [lra | reflexivity].
  - destruct (Req_dec_T (spec_u T v N - spec_d T v N) 0); [lra | reflexivity].
Qed.

End StepParameters.

(** Whenever the block returns in real arithmetic, it returns the parameters
    of the specification. *)
Lemma BiTree_Parameters_real_returned (T v r q : R) (N : nat)
  (prm : BiTreeParameters (A := real)) :
  BiTree_Parameters (A := real) T v r q N = Ok prm ->
  (1 <= N)%nat /\
  prm = spec_parameters T v r q N.
Proof.
  intro E. pose proof (BiTree_Parameters_returned _ _ _ _ _ _ E) as H.
  destruct H as [HN [Hdt [_ [_ [Hu [_ [Hd [_ [Ha [_ Hp]]]]]]]]]].
  split; [exact HN |].
  simpl in Hdt, Hu, Hd, Ha, Hp.
  assert (EN : IZR (Z.of_nat N) = INR N) by (symmetry; apply INR_IZR_INZ).
  rewrite EN in Hdt. fold (spec_dt T N) in Hdt.
  rewrite Hdt in Hu, Ha. fold (spec_u T v N) in Hu. fold (spec_a T r q N) in Ha.
  rewrite Hu in Hd. fold (spec_d T v N) in Hd.
  rewrite Hu, Hd, Ha in Hp. fold (spec_p T v r q N) in Hp.
  destruct prm as [dt0 u0 d0 a0 p0]. simpl in *. subst.
  reflexivity.
Qed.

(** With u >= 1 and 0 <= d <= 1, the powers fit as soon as u^N does. *)
Lemma powers_fit_real (u d : R) (N : nat) :
  1 <= u -> 0 <= d <= 1 -> u ^ N <= float_max ->
  powers_fit (A := real) u d N.
Proof.
  intros Hu Hd Hfit n Hn. split; apply real_pow_fits.
  - rewrite Rabs_right by (apply Rle_ge, pow_le; lra).
    apply Rle_trans with (u ^ N); [| exact Hfit].
    apply Rle_pow; assumption.
  - rewrite Rabs_right by (apply Rle_ge, pow_le; lra).
    apply Rle_trans with 1; [| pose proof float_max_ge_9; lra].
    rewrite <- (pow1 n). apply pow_incr. exact Hd.
Qed.

Lemma pow_3_600_fits : 3 ^ 600 <= float_max.
Proof.
  apply Rle_trans with (10 ^ 300); [| apply float_max_above].
  rewrite (pow_IZR 3 600), (pow_IZR 10 300).
  apply IZR_le. vm_compute. discriminate.
Qed.

(** A tree whose single up move is at most e fits in a double for up to 600
    steps: such are the trees of the examples below. *)
Lemma small_tree_fits (T v r q : R) (N : nat) :
  0 < T -> 0 < v -> (1 <= N <= 600)%nat ->
  v * sqrt (spec_dt T N) <= 1 -> (r - q) * spec_dt T N <= 1 ->
  BiTree_Parameters (A := real) T v r q N =
  Ok (spec_parameters T v r q N) /\
  powers_fit (A := real) (spec_u T v N) (spec_d T v N) N /\
  is_zero (Arith := real) (spec_a T r q N) = false.
Proof.
  intros HT Hv HN Hvs Hrq.
  pose proof exp_le_3 as He. pose proof float_max_ge_9 as Hmax.
  assert (Hu3 : spec_u T v N <= 3).
  { unfold spec_u. apply Rle_trans with (exp 1); [| exact He].
    destruct Hvs as [Hlt | Heq]; [left; apply exp_increasing; exact Hlt |].
    rewrite Heq. apply Rle_refl. }
  assert (Ha3 : spec_a T r q N <= 3).
  { unfold spec_a. apply Rle_trans with (exp 1); [| exact He].
    destruct Hrq as [Hlt | Heq]; [left; apply exp_increasing; exact Hlt |].
    rewrite Heq. apply Rle_refl. }
  pose proof (spec_u_gt_1 T v N HT Hv ltac:(lia)) as Hu.
  pose proof (spec_d_bounds T v N HT Hv ltac:(lia)) as Hd.
  split; [apply BiTree_Parameters_real_ok; try assumption; try lia; lra |].
  split.
  - apply powers_fit_real; [lra | lra |].
    apply Rle_trans with (3 ^ N); [apply pow_incr; lra |].
    apply Rle_trans with (3 ^ 600); [| apply pow_3_600_fits].
    apply Rle_pow; [lra | lia].
  - apply real_is_zero_false. pose proof (spec_a_pos T r q N). lra.
Qed.

(** The trees of the examples: T = 1, v = 3/10, r - q at most 1. *)
Lemma spec_dt_le_1 (N : nat) : (1 <= N)%nat -> spec_dt 1 N <= 1.
Proof.
  intro HN. unfold spec_dt, Rdiv. rewrite Rmult_1_l.
  assert (H1 : 1 <= INR N) by (apply (le_INR 1); exact HN).
  rewrite <- Rinv_1. apply Rinv_le_contravar; lra.
Qed.

Lemma sqrt_dt_le_1 (N : nat) : (1 <= N)%nat -> sqrt (spec_dt 1 N) <= 1.
Proof.
  intro HN. apply Rle_trans with (sqrt 1); [| rewrite sqrt_1; lra].
  apply sqrt_le_1_alt, spec_dt_le_1, HN.
Qed.

Lemma example_tree_fits (r q : R) (N : nat) :
  (1 <= N <= 600)%nat -> 0 <= r - q <= 1 ->
  BiTree_Parameters (A := real) 1 (3 / 10) r q N
  = Ok (spec_parameters 1 (3 / 10) r q N) /\
  powers_fit (A := real) (spec_u 1 (3 / 10) N) (spec_d 1 (3 / 10) N) N /\
  is_zero (Arith := real) (spec_a 1 r q N) = false.
Proof.
  intros HN Hrq.
  pose proof (sqrt_dt_le_1 N ltac:(lia)) as Hs.
  pose proof (sqrt_pos (spec_dt 1 N)) as Hs0.
  assert (Hdt : 0 < spec_dt 1 N <= 1).
  { split; [apply spec_dt_pos; [lra | lia] | apply spec_dt_le_1; lia]. }
  apply small_tree_fits; try lra; try lia; nra.
Qed.

(** In real arithmetic the example trees are priced. *)
Lemma example_price (S0 K r q : R) (N : nat) (k : kind) :
  (1 <= N <= 600)%nat -> 0 <= r - q <= 1 ->
  AmericanOption (A := real) S0 K 1 (3 / 10) r q N (kind_name k)
  = Ok (Return [] (spec_price k S0 K 1 (3 / 10) r q N)).
Proof.
  intros HN Hrq.
  destruct (example_tree_fits r q N HN Hrq) as [Eprm [Hfit Ha]].
  apply (AmericanOption_value (A := real) S0 K 1 (3 / 10) r q N k
           (spec_parameters 1 (3 / 10) r q N) Eprm Hfit Ha).
Qed.

(** Whenever the pricer returns in real arithmetic, the value is the root of
    the lattice over the parameters of the specification. *)
Lemma AmericanOption_real_returned (S0 K T v r q : R) (N : nat) (k : kind)
  (o : outcome R) :
  AmericanOption (A := real) S0 K T v r q N (kind_name k) = Ok o ->
  (1 <= N)%nat /\ o = Return [] (spec_price k S0 K T v r q N).
Proof.
  intro E.
  destruct (AmericanOption_returned (A := real) _ _ _ _ _ _ _ _ _ E)
    as [prm [Eprm [_ [_ Eo]]]].
  destruct (BiTree_Parameters_real_returned _ _ _ _ _ _ Eprm) as [HN ->].
  split; [exact HN | exact Eo].
Qed.

Lemma spec_stock_root (S0 u d : R) : spec_stock (A := real) S0 u d 0 0 = S0.
Proof. unfold spec_stock. simpl. ring. Qed.

(** Every lattice value is at least the exercise value of its node. *)
Lemma spec_option_ge_exercise (k : kind) (S0 K u d a p : R) (n i j : nat) :
  spec_exercise (A := real) k K (spec_stock (A := real) S0 u d i j)
  <= spec_option (A := real) k S0 K u d a p n i j.
Proof. destruct n; simpl; apply Rmax_r. Qed.

(** With a positive discount factor and a probability p in [0, 1] every
    lattice value is non-negative. *)
Lemma spec_option_nonneg (k : kind) (S0 K u d a p : R) (n i j : nat) :
  0 < a -> 0 <= p <= 1 -> 0 <= spec_option (A := real) k S0 K u d a p n i j.
Proof.
  intros Ha Hp. revert i j. induction n as [| n IH]; intros i j; simpl.
  - apply Rmax_l.
  - eapply Rle_trans; [| apply Rmax_l].
    apply Rmult_le_pos.
    + unfold Rdiv. rewrite Rmult_1_l. left. apply Rinv_0_lt_compat, Ha.
    + pose proof (IH i (S j)). pose proof (IH (S i) (S j)).
      apply Rplus_le_le_0_compat; apply Rmult_le_pos; lra.
Qed.

Lemma spec_exercise_scale (k : kind) (c K s : R) :
  spec_exercise (A := real) k (c * K) (c * s)
  = c * spec_exercise (A := real) k K s.
Proof. destruct k; simpl; ring. Qed.

Lemma spec_stock_scale (c S0 u d : R) (i j : nat) :
  spec_stock (A := real) (c * S0) u d i j = c * spec_stock (A := real) S0 u d i j.
Proof. unfold spec_stock. simpl. ring. Qed.

(** Scaling spot and strike by c >= 0 scales every lattice value by c. *)
Lemma spec_option_scale (k : kind) (c S0 K u d a p : R) (n i j : nat) :
  0 <= c ->
  spec_option (A := real) k (c * S0) (c * K) u d a p n i j
  = c * spec_option (A := real) k S0 K u d a p n i j.
Proof.
  intro Hc. revert i j. induction n as [| n IH]; intros i j; cbn [spec_option].
  - rewrite spec_stock_scale, spec_exercise_scale.
    cbn [fmax fmul fadd fsub fdiv of_Z real].
    rewrite <- (RmaxRmult _ _ c Hc). f_equal. ring.
  - rewrite spec_stock_scale, spec_exercise_scale, !IH.
    cbn [fmax fmul fadd fsub fdiv of_Z real].
    rewrite <- (RmaxRmult _ _ c Hc). f_equal. ring.
Qed.

(** The risk-neutral probability lies in [0, 1] when the growth over one
    step does not exceed the volatility move: |(r - q) dt| <= v sqrt dt. *)
Lemma spec_p_in_unit_interval (T v r q : R) (N : nat) :
  0 < T -> 0 < v -> (1 <= N)%nat ->
  - (v * sqrt (T / INR N)) <= (r - q) * (T / INR N) <= v * sqrt (T / INR N) ->
  0 <= spec_p T v r q N <= 1.
Proof.
  intros HT Hv HN [Hlo Hhi].
  pose proof (spec_u_gt_1 T v N HT Hv HN) as Hu.
  pose proof (spec_d_bounds T v N HT Hv HN) as Hd.
  assert (Hau : spec_a T r q N <= spec_u T v N).
  { unfold spec_a, spec_u, spec_dt.
    destruct Hhi as [Hlt | Heq]; [left; apply exp_increasing; exact Hlt |].
    rewrite Heq. apply Rle_refl. }
  assert (Hda : spec_d T v N <= spec_a T r q N).
  { unfold spec_d, spec_a, spec_u, spec_dt.
    unfold Rdiv at 1. rewrite Rmult_1_l, <- exp_Ropp.
    destruct Hlo as [Hlt | Heq]; [left; apply exp_increasing; exact Hlt |].
    rewrite Heq. apply Rle_refl. }
  unfold spec_p.
  set (uu := spec_u T v N) in *. set (dd := spec_d T v N) in *.
  set (aa := spec_a T r q N) in *.
  assert (Hpos : 0 < / (uu - dd)) by (apply Rinv_0_lt_compat; lra).
  split.
  - unfold Rdiv. apply Rmult_le_pos; lra.
  - apply (Rmult_le_reg_r (uu - dd)); [lra |].
    unfold Rdiv. rewrite Rmult_assoc, Rinv_l by lra. lra.
Qed.

(** With a positive discount factor and p in [0, 1], a higher strike lowers
    every call value and raises every put value of the lattice. *)
Lemma spec_option_call_strike (S0 K K' u d a p : R) (n i j : nat) :
  0 < a -> 0 <= p <= 1 -> K <= K' ->
  spec_option (A := real) call S0 K' u d a p n i j
  <= spec_option (A := real) call S0 K u d a p n i j.
Proof.
  intros Ha Hp HK. revert i j.
  assert (Hd : 0 < 1 / a)
    by (unfold Rdiv; rewrite Rmult_1_l; apply Rinv_0_lt_compat, Ha).
  induction n as [| n IH]; intros i j; simpl.
  - apply Rle_max_compat_l. lra.
  - apply Rmax_lub.
    + eapply Rle_trans; [| apply Rmax_l].
      apply Rmult_le_compat_l; [lra |].
      pose proof (IH i (S j)). pose proof (IH (S i) (S j)).
      apply Rplus_le_compat; apply Rmult_le_compat_l; lra.
    + eapply Rle_trans; [| apply Rmax_r]. lra.
Qed.

Lemma spec_option_put_strike (S0 K K' u d a p : R) (n i j : nat) :
  0 < a -> 0 <= p <= 1 -> K <= K' ->
  spec_option (A := real) put S0 K u d a p n i j
  <= spec_option (A := real) put S0 K' u d a p n i j.
Proof.
  intros Ha Hp HK. revert i j.
  assert (Hd : 0 < 1 / a)
    by (unfold Rdiv; rewrite Rmult_1_l; apply Rinv_0_lt_compat, Ha).
  induction n as [| n IH]; intros i j; simpl.
  - apply Rle_max_compat_l. lra.
  - apply Rmax_lub.
    + eapply Rle_trans; [| apply Rmax_l].
      apply Rmult_le_compat_l; [lra |].
      pose proof (IH i (S j)). pose proof (IH (S i) (S j)).
      apply Rplus_le_compat; apply Rmult_le_compat_l; lra.
    + eapply Rle_trans; [| apply Rmax_r]. lra.
Qed.

(** At v = 1000 the up factor exp(1000) is beyond the largest double. *)
Lemma parameters_overflow_at_1000 (r q : R) :
  BiTree_Parameters (A := real) 1 1000 r q 1 = Raise OverflowError.
Proof.
  unfold BiTree_Parameters, truediv_int, math_sqrt, math_exp. simpl.
  replace (1 / 1) with 1 by field.
  destruct (Rlt_dec 1 0) as [Hneg | _]; [lra |]. simpl.
  rewrite sqrt_1. replace (1000 * 1) with 1000 by ring.
  destruct (Rlt_dec float_max (exp 1000)) as [_ | Hfit]; [reflexivity |].
  exfalso. apply Hfit. apply exp_1000_overflows.
Qed.

End RealFloatFacts.

(* ===================================================================== *)
(** * Binomial pricer: properties                                         *)
(* ===================================================================== *)

Module BinomialTreeTheorems.

Import BinomialTree PyFacts FloatFacts NpFacts BinomialTreeLemmas RealFloatFacts.

(** C1, as the program has it.  In every floating-point arithmetic: when the
    step parameters are computed without error (lines 31-35 return), no power
    u**n or d**n of the stock tree overflows (n <= N) and the factor a is not
    zero, [AmericanOption] with the option type 'call' or 'put' prints
    nothing and returns the root option[0][0] of the lattice recursion of the
    specification, evaluated with the same operations: terminal values
    max(0, exercise value), then for each earlier column the discounted
    expectation (1/a)(p option[i][j+1] + (1-p) option[i+1][j+1]) floored by
    the exercise value, over stock[i][j] = S0 u^(j-i) d^i. *)
Theorem AmericanOption_lattice {A : Arith} (S0 K T v r q : F) (N : nat)
  (k : kind) (prm : BiTreeParameters) :
  BiTree_Parameters T v r q N = Ok prm ->
  powers_fit (u prm) (d prm) N ->
  is_zero (a prm) = false ->
  AmericanOption S0 K T v r q N (kind_name k)
  = Ok (Return []
          (spec_option k S0 K (u prm) (d prm) (a prm) (p prm) N 0 0)).
Proof.
  intros Eprm Hfit Ha. unfold AmericanOption. rewrite Eprm. simpl.
  destruct (BiTree_Construction_cells S0 (u prm) (d prm) N Hfit)
    as [st [Est [Hshape Hcells]]].
  rewrite Est. simpl.
  assert (Hcells' : forall i j, (i <= j <= N)%nat ->
            cell (of_Z 0) st i j = spec_stock S0 (u prm) (d prm) i j).
  { intros i j Hij. rewrite Hcells by lia.
    destruct (Nat.leb_spec i j); [reflexivity | lia]. }
  destruct (option_branch_ok k S0 K (u prm) (d prm) (a prm) (p prm) N st
              Hshape Hcells' Ha) as [ot [Eot [Hot Hroot]]].
  transitivity
    (option_tree <- option_branch st (a prm) (p prm) N
                      (exercise_column k K) (zeros (N + 1) (N + 1)) ;;
     price <- getitem option_tree 0 0 ;;
     Ok (Return [] price)).
  - destruct k; apply option_branch_then.
  - rewrite Eot. simpl.
    rewrite (getitem_ok _ (of_Z 0) ot (N + 1) (N + 1)) by (auto; lia). simpl.
    rewrite Hroot. reflexivity.
Qed.

Lemma AmericanOption_lattice_witness :
  let prm := spec_parameters 1 (3 / 10) (1 / 20) 0 2 in
  (BiTree_Parameters (A := real) 1 (3 / 10) (1 / 20) 0 2 = Ok prm /\
   powers_fit (A := real) (u prm) (d prm) 2 /\
   is_zero (Arith := real) (a prm) = false) /\
  AmericanOption (A := real) 50 50 1 (3 / 10) (1 / 20) 0 2 "put"
  = Ok (Return []
          (spec_option (A := real) put 50 50 (u prm) (d prm) (a prm) (p prm)
             2 0 0)).
Proof.
  intro prm.
  assert (H : BiTree_Parameters (A := real) 1 (3 / 10) (1 / 20) 0 2 = Ok prm /\
              powers_fit (A := real) (u prm) (d prm) 2 /\
              is_zero (Arith := real) (a prm) = false)
    by (apply example_tree_fits; [lia | lra]).
  split; [exact H |].
  destruct H as [H1 [H2 H3]].
  exact (AmericanOption_lattice (A := real) 50 50 1 (3 / 10) (1 / 20) 0 2 put
           prm H1 H2 H3).
Defined.

(** C1, as the specification words it, fails: at v = 1000 (S0 = K = 50,
    T = 1, N = 1) the up factor exp(1000) overflows, [math.exp] raises
    OverflowError and no price is returned. *)
Lemma AmericanOption_overflow_no_price :
  (0 < 50 /\ 0 < 50 /\ 0 < 1 /\ 0 < 1000 /\ (1 <= 1)%nat) /\
  AmericanOption (A := real) 50 50 1 1000 (1 / 20) 0 1 "call"
  = Raise OverflowError /\
  ~ (exists price,
       AmericanOption (A := real) 50 50 1 1000 (1 / 20) 0 1 "call"
       = Ok (Return [] price)).
Proof.
  assert (E : AmericanOption (A := real) 50 50 1 1000 (1 / 20) 0 1 "call"
              = Raise OverflowError).
  { unfold AmericanOption. rewrite parameters_overflow_at_1000. reflexivity. }
  split; [repeat split; try lra; lia |].
  split; [exact E |].
  intros [price Hp]. rewrite E in Hp. discriminate.
Qed.

(** C6, as the program has it.  In every floating-point arithmetic, for an
    option type that is neither 'call' nor 'put': the type is looked at only
    after the step parameters and the stock tree (lines 31-42).  When those
    lines return, [AmericanOption] prints one diagnostic line and returns the
    number -1, raising nothing; when they raise, their error is the result. *)
Theorem AmericanOption_invalid_kind_sentinel {A : Arith}
  (S0 K T v r q : F) (N : nat) (CallorPut : string) :
  CallorPut <> "call"%string -> CallorPut <> "put"%string ->
  (forall prm stock_tree,
     BiTree_Parameters T v r q N = Ok prm ->
     BiTree_Construction S0 (u prm) (d prm) N = Ok stock_tree ->
     AmericanOption S0 K T v r q N CallorPut
     = Ok (Return [diagnostic] (of_Z (-1))) /\
     forall e, AmericanOption S0 K T v r q N CallorPut <> Raise e) /\
  (forall e,
     BiTree_Parameters T v r q N = Raise e ->
     AmericanOption S0 K T v r q N CallorPut = Raise e) /\
  (forall prm e,
     BiTree_Parameters T v r q N = Ok prm ->
     BiTree_Construction S0 (u prm) (d prm) N = Raise e ->
     AmericanOption S0 K T v r q N CallorPut = Raise e).
Proof.
  intros Hc Hp.
  pose proof (AmericanOption_other_kind S0 K T v r q N CallorPut Hc Hp) as E.
  split; [| split].
  - intros prm st Eprm Est. rewrite E, Eprm. simpl. rewrite Est. simpl.
    split; [reflexivity | discriminate].
  - intros e Eprm. rewrite E, Eprm. reflexivity.
  - intros prm e Eprm Est. rewrite E, Eprm. simpl. rewrite Est. reflexivity.
Qed.

(** The stock tree of the example trees is built. *)
Lemma example_stock_tree (S0 r q : R) (N : nat) :
  (1 <= N <= 600)%nat -> 0 <= r - q <= 1 ->
  exists stock_tree,
    BiTree_Construction (A := real) S0 (spec_u 1 (3 / 10) N)
      (spec_d 1 (3 / 10) N) N = Ok stock_tree.
Proof.
  intros HN Hrq.
  destruct (example_tree_fits r q N HN Hrq) as [_ [Hfit _]].
  destruct (BiTree_Construction_cells (A := real) S0 _ _ N Hfit)
    as [st [Est _]].
  exists st. exact Est.
Qed.

Lemma AmericanOption_invalid_kind_sentinel_witness :
  ("butterfly"%string <> "call"%string /\ "butterfly"%string <> "put"%string) /\
  AmericanOption (A := real) 50 50 1 (3 / 10) (1 / 20) 0 3 "butterfly"
  = Ok (Return [diagnostic] (-1)) /\
  forall e,
    AmericanOption (A := real) 50 50 1 (3 / 10) (1 / 20) 0 3 "butterfly"
    <> Raise e.
Proof.
  assert (H : "butterfly"%string <> "call"%string /\
              "butterfly"%string <> "put"%string)
    by (split; discriminate).
  split; [exact H |].
  destruct H as [H1 H2].
  destruct (example_tree_fits (1 / 20) 0 3 ltac:(lia) ltac:(lra)) as [Eprm _].
  destruct (example_stock_tree 50 (1 / 20) 0 3 ltac:(lia) ltac:(lra))
    as [st Est].
  exact (proj1 (AmericanOption_invalid_kind_sentinel (A := real)
                  50 50 1 (3 / 10) (1 / 20) 0 3 "butterfly" H1 H2)
           (spec_parameters 1 (3 / 10) (1 / 20) 0 3) st Eprm Est).
Defined.

(** C6, as the specification words it, fails: with the option type
    'straddle' and S0 = K = 50, T = 1, v = 3/10, r = 1/20, q = 0, N = 1 the
    call raises nothing and returns the sentinel -1. *)
Lemma AmericanOption_straddle_no_error :
  ~ (exists e,
       AmericanOption (A := real) 50 50 1 (3 / 10) (1 / 20) 0 1 "straddle"
       = Raise e)
  /\ exists out,
       AmericanOption (A := real) 50 50 1 (3 / 10) (1 / 20) 0 1 "straddle"
       = Ok (Return out (-1)).
Proof.
  assert (E : AmericanOption (A := real) 50 50 1 (3 / 10) (1 / 20) 0 1 "straddle"
              = Ok (Return [diagnostic] (-1))).
  { rewrite AmericanOption_other_kind by discriminate.
    destruct (example_tree_fits (1 / 20) 0 1 ltac:(lia) ltac:(lra)) as [Eprm _].
    destruct (example_stock_tree 50 (1 / 20) 0 1 ltac:(lia) ltac:(lra))
      as [st Est].
    rewrite Eprm. simpl. rewrite Est. reflexivity. }
  split.
  - intros [e He]. rewrite E in He. discriminate.
  - exists [diagnostic]. exact E.
Qed.

(** C10, as the program has it.  For T > 0, v > 0 and N >= 1: whenever the
    parameter block returns (it raises when an exponential overflows), the
    parameters are dt = T/N, u = exp(v sqrt dt), d = 1/u, a = exp((r - q) dt),
    p = (a - d)/(u - d), and in real arithmetic they satisfy 0 < d < 1 < u,
    and 0 < p < 1 whenever d < a < u. *)
Theorem BiTree_Parameters_invariant (T v r q : R) (N : nat)
  (prm : BiTreeParameters (A := real)) :
  0 < T -> 0 < v -> (1 <= N)%nat ->
  BiTree_Parameters (A := real) T v r q N = Ok prm ->
  dt prm = T / INR N /\
  u prm = exp (v * sqrt (dt prm)) /\
  d prm = 1 / u prm /\
  a prm = exp ((r - q) * dt prm) /\
  p prm = (a prm - d prm) / (u prm - d prm) /\
  (0 < d prm < 1 /\ 1 < u prm) /\
  (d prm < a prm < u prm -> 0 < p prm < 1).
Proof.
  intros HT Hv HN E.
  destruct (BiTree_Parameters_real_returned T v r q N prm E) as [_ ->].
  simpl.
  pose proof (spec_u_gt_1 T v N HT Hv HN) as Hu.
  pose proof (spec_d_bounds T v N HT Hv HN) as Hd.
  repeat (split; [reflexivity |]).
  split; [split; assumption |].
  intros [Hlo Hhi]. unfold spec_p.
  set (uu := spec_u T v N) in *. set (dd := spec_d T v N) in *.
  set (aa := spec_a T r q N) in *.
  split.
  - apply Rdiv_lt_0_compat; lra.
  - apply (Rmult_lt_reg_r (uu - dd)); [lra |].
    unfold Rdiv. rewrite Rmult_assoc, Rinv_l by lra. lra.
Qed.

Lemma BiTree_Parameters_invariant_witness :
  let prm := spec_parameters 1 (3 / 10) (1 / 20) 0 4 in
  (0 < 1 /\ 0 < 3 / 10 /\ (1 <= 4)%nat /\
   BiTree_Parameters (A := real) 1 (3 / 10) (1 / 20) 0 4 = Ok prm) /\
  dt prm = 1 / INR 4 /\
  u prm = exp (3 / 10 * sqrt (dt prm)) /\
  d prm = 1 / u prm /\
  a prm = exp ((1 / 20 - 0) * dt prm) /\
  p prm = (a prm - d prm) / (u prm - d prm) /\
  (0 < d prm < 1 /\ 1 < u prm) /\
  (d prm < a prm < u prm -> 0 < p prm < 1).
Proof.
  intro prm.
  assert (H : 0 < 1 /\ 0 < 3 / 10 /\ (1 <= 4)%nat /\
              BiTree_Parameters (A := real) 1 (3 / 10) (1 / 20) 0 4 = Ok prm).
  { repeat split; try lra; try lia.
    apply (example_tree_fits (1 / 20) 0 4); [lia | lra]. }
  split; [exact H |].
  destruct H as [H1 [H2 [H3 H4]]].
  exact (BiTree_Parameters_invariant 1 (3 / 10) (1 / 20) 0 4 prm H1 H2 H3 H4).
Defined.

(** C10, as the specification words it, fails: at T = 1, v = 1000, N = 1 the
    block raises OverflowError and computes no parameters. *)
Lemma BiTree_Parameters_overflow :
  (0 < 1 /\ 0 < 1000 /\ (1 <= 1)%nat) /\
  BiTree_Parameters (A := real) 1 1000 (1 / 20) 0 1 = Raise OverflowError /\
  ~ (exists prm, BiTree_Parameters (A := real) 1 1000 (1 / 20) 0 1 = Ok prm).
Proof.
  split; [repeat split; try lra; lia |].
  split; [apply parameters_overflow_at_1000 |].
  intros [prm Hp]. rewrite parameters_overflow_at_1000 in Hp. discriminate.
Qed.

End BinomialTreeTheorems.

(* ===================================================================== *)
(** * The normal law: symmetry                                            *)
(* ===================================================================== *)

Module NormFacts.

Lemma gauss_even (t : R) : gauss (- t) = gauss t.
Proof. unfold gauss. f_equal. field. Qed.

Lemma gauss_area_chasles (lo mid hi : R) :
  gauss_area lo mid + gauss_area mid hi = gauss_area lo hi.
Proof. unfold gauss_area. apply RiemannInt_P26. Qed.

Lemma gauss_area_swap (lo hi : R) : gauss_area lo hi = - gauss_area hi lo.
Proof. unfold gauss_area. apply RiemannInt_P8. Qed.

Lemma gauss_area_empty (lo : R) : gauss_area lo lo = 0.
Proof. pose proof (gauss_area_swap lo lo). lra. Qed.

(** The kernel is even, so its integral over [-x, 0] is the one over [0, x]:
    t |-> - P(-t) is a second antiderivative of the kernel on [-x, x], where
    P is the integral from -x, and two antiderivatives differ by a constant. *)
Lemma gauss_area_mirror (x : R) : 0 <= x -> gauss_area (- x) 0 = gauss_area 0 x.
Proof.
  intro Hx.
  assert (h : - x <= x) by lra.
  set (C0 := fun (t : R) (_ : - x <= t <= x) => gauss_continuity t).
  set (P := primitive h (FTC_P1 h C0)).
  assert (HP : forall t, - x <= t <= x -> P t = gauss_area (- x) t).
  { intros t [Hlo Hhi]. unfold P, primitive.
    destruct (Rle_dec (- x) t) as [Ha |]; [| lra].
    destruct (Rle_dec t x) as [Hb |]; [| lra].
    unfold gauss_area. apply RiemannInt_P5. }
  assert (A1 : antiderivative gauss P (- x) x) by apply RiemannInt_P29.
  assert (A2 : antiderivative gauss (fun t => - P (- t)) (- x) x).
  { split; [| exact h]. intros t Ht.
    assert (Ht' : - x <= - t <= x) by lra.
    assert (D : derivable_pt_lim (fun t => - P (- t)) t (gauss t)).
    { pose proof (RiemannInt_P28 h C0 Ht') as DP. fold P in DP.
      assert (Dneg : derivable_pt_lim (fun t => - t) t (-1)).
      { replace (-1) with (- 1) by lra.
        apply (derivable_pt_lim_opp id), derivable_pt_lim_id. }
      pose proof (derivable_pt_lim_comp (fun t => - t) P t (-1) (gauss (- t)) Dneg DP)
        as Dcomp.
      pose proof (derivable_pt_lim_opp _ _ _ Dcomp) as Dopp.
      rewrite gauss_even in Dopp.
      replace (gauss t) with (- (gauss t * -1)) by lra. exact Dopp. }
    exists (exist _ (gauss t) D). reflexivity. }
  destruct (antiderivative_Ucte _ _ _ _ _ A1 A2) as [c Hc].
  pose proof (Hc x ltac:(lra)) as Ex.
  pose proof (Hc 0 ltac:(lra)) as E0.
  simpl in Ex, E0. rewrite Ropp_0 in E0.
  rewrite !HP in Ex by lra. rewrite !HP in E0 by lra.
  rewrite gauss_area_empty in Ex.
  pose proof (gauss_area_chasles (- x) 0 x). lra.
Qed.

Lemma gauss_area_odd (x : R) : gauss_area 0 (- x) = - gauss_area 0 x.
Proof.
  destruct (Rle_dec 0 x) as [Hx | Hx].
  - rewrite <- (gauss_area_mirror x Hx). apply gauss_area_swap.
  - pose proof (gauss_area_mirror (- x) ltac:(lra)) as E.
    rewrite Ropp_involutive in E. rewrite <- E.
    rewrite (gauss_area_swap x 0). lra.
Qed.

(** Phi(-x) = 1 - Phi(x). *)
Lemma Phi_opp (x : R) : Phi (- x) = 1 - Phi x.
Proof. unfold Phi. rewrite gauss_area_odd. lra. Qed.

Lemma Phi_zero : Phi 0 = 1 / 2.
Proof. unfold Phi. rewrite gauss_area_empty. lra. Qed.

(** With location 0 and scale 1 the distribution function is Phi itself. *)
Lemma norm_cdf_standard (x : R) : norm_cdf x 0 1 = Phi x.
Proof. unfold norm_cdf. f_equal. field. Qed.

End NormFacts.

(* ===================================================================== *)
(** * The analytic pricers: lemmas                                        *)
(* ===================================================================== *)

Module BlackScholesLemmas.

Import BlackScholes NormFacts.

Lemma select_knock_out (out_leg in_leg : R) :
  select_knock "out" out_leg in_leg = Return [] out_leg.
Proof. reflexivity. Qed.

Lemma select_knock_in (out_leg in_leg : R) :
  select_knock "in" out_leg in_leg = Return [] in_leg.
Proof. reflexivity. Qed.

Lemma float_pow_ok (x y : R) :
  Rpower x y <= float_max -> float_pow x y = Ok (Rpower x y).
Proof.
  intro H. unfold float_pow.
  destruct (Rlt_dec float_max (Rpower x y)); [lra | reflexivity].
Qed.

Lemma float_pow_overflow (x y : R) :
  float_max < Rpower x y -> float_pow x y = Raise OverflowError.
Proof.
  intro H. unfold float_pow.
  destruct (Rlt_dec float_max (Rpower x y)); [reflexivity | lra].
Qed.

Lemma float_pow_returned (x y z : R) :
  float_pow x y = Ok z -> z = Rpower x y.
Proof.
  unfold float_pow. destruct (Rlt_dec float_max (Rpower x y)); [discriminate |].
  intro E. injection E as <-. reflexivity.
Qed.

Lemma float_pow_raised (x y : R) (e : exn) :
  float_pow x y = Raise e -> e = OverflowError.
Proof.
  unfold float_pow. destruct (Rlt_dec float_max (Rpower x y)); [| discriminate].
  intro E. injection E as <-. reflexivity.
Qed.

Lemma float_max_ge_1 : 1 <= float_max.
Proof. unfold float_max. apply IZR_le. vm_compute. discriminate. Qed.

Lemma Rpower_base_one (x : R) : Rpower 1 x = 1.
Proof. unfold Rpower. rewrite ln_1, Rmult_0_r. apply exp_0. Qed.

(** A power of the base 1 never overflows. *)
Lemma float_pow_base_one (y : R) : float_pow 1 y = Ok 1.
Proof.
  rewrite float_pow_ok; rewrite Rpower_base_one;
    [reflexivity | apply float_max_ge_1].
Qed.

(** A non-negative power of a base in (0, 1] is at most 1. *)
Lemma Rpower_le_1 (x y : R) : 0 < x <= 1 -> 0 <= y -> Rpower x y <= 1.
Proof.
  intros [Hx0 Hx1] Hy. unfold Rpower. rewrite <- exp_0.
  assert (Hln : ln x <= 0).
  { rewrite <- ln_1. destruct Hx1 as [Hlt | ->]; [| apply Rle_refl].
    left. apply ln_increasing; assumption. }
  assert (Harg : y * ln x <= 0) by nra.
  destruct Harg as [Hlt | ->]; [left; apply exp_increasing; exact Hlt |].
  apply Rle_refl.
Qed.



Lemma sqrt_T_pos (T : R) : 0 < T -> 0 < sqrt T.
Proof. apply sqrt_lt_R0. Qed.

(** The two numerators of d1 and d2 differ by v^2 T, which divided by
    v sqrt(T) is v sqrt(T). *)
Lemma d2_is_d1_minus (S0 K T v r q : R) :
  0 < T -> 0 < v ->
  _d2 S0 K T v r q = _d1 S0 K T v r q - v * sqrt T.
Proof.
  intros HT Hv. pose proof (sqrt_T_pos T HT) as Hs.
  unfold _d1, _d2.
  assert (E : T = sqrt T * sqrt T) by (symmetry; apply sqrt_sqrt; lra).
  rewrite E at 1 3. field. split; lra.
Qed.

End BlackScholesLemmas.

(* ===================================================================== *)
(** * Analytic pricers: properties                                        *)
(* ===================================================================== *)

Module BlackScholesTheorems.

Import BlackScholes NormFacts BlackScholesLemmas.

(** C8. For S0, K, T, v > 0 and any r, q the constructor stores
    d1 = (ln(S0/K) + (r - q + v^2/2) T) / (v sqrt T) and d2 = d1 - v sqrt T,
    although d2 is computed by a formula of its own. *)
Theorem BSmodel_d1_d2 (S0 K T v r q : R) :
  0 < S0 -> 0 < K -> 0 < T -> 0 < v ->
  let m := BSmodel__init__ S0 K T v r q in
  d1 m = (ln (S0 / K) + (r - q + v ^ 2 / 2) * T) / (v * sqrt T) /\
  d2 m = d1 m - v * sqrt T.
Proof.
  intros _ _ HT Hv m. subst m. simpl. split.
  - unfold _d1. f_equal. f_equal. f_equal. lra.
  - apply d2_is_d1_minus; assumption.
Qed.

Lemma BSmodel_d1_d2_witness :
  (0 < 50 /\ 0 < 40 /\ 0 < 2 /\ 0 < 1 / 5) /\
  let m := BSmodel__init__ 50 40 2 (1 / 5) (1 / 20) (1 / 100) in
  d1 m = (ln (50 / 40) + (1 / 20 - 1 / 100 + (1 / 5) ^ 2 / 2) * 2) / (1 / 5 * sqrt 2) /\
  d2 m = d1 m - 1 / 5 * sqrt 2.
Proof.
  assert (H : 0 < 50 /\ 0 < 40 /\ 0 < 2 /\ 0 < 1 / 5) by (repeat split; lra).
  split; [exact H |].
  destruct H as [H1 [H2 [H3 H4]]].
  exact (BSmodel_d1_d2 50 40 2 (1 / 5) (1 / 20) (1 / 100) H1 H2 H3 H4).
Defined.

(** C2. For S0, K, T, v > 0 and any r, q:
    call = S0 e^(-qT) Phi(d1) - K e^(-rT) Phi(d2) and
    put = K e^(-rT) Phi(-d2) - S0 e^(-qT) Phi(-d1), with Phi the standard
    normal distribution function and d1, d2 those of the constructor. *)
Theorem vanilla_european_closed_form (S0 K T v r q : R) :
  0 < S0 -> 0 < K -> 0 < T -> 0 < v ->
  let m := VanillaEuro__init__ S0 K T v r q in
  vanilla_european_call m
  = S0 * exp (- (q * T)) * Phi (d1 m) - K * exp (- (r * T)) * Phi (d2 m) /\
  vanilla_european_put m
  = K * exp (- (r * T)) * Phi (- d2 m) - S0 * exp (- (q * T)) * Phi (- d1 m).
Proof.
  intros _ _ _ _ m. subst m.
  unfold vanilla_european_call, vanilla_european_put, VanillaEuro__init__. simpl.
  rewrite !norm_cdf_standard.
  replace (- q * T) with (- (q * T)) by ring.
  replace (-1 * r * T) with (- (r * T)) by ring.
  replace (-1 * _d1 S0 K T v r q) with (- _d1 S0 K T v r q) by ring.
  replace (-1 * _d2 S0 K T v r q) with (- _d2 S0 K T v r q) by ring.
  split; reflexivity.
Qed.

Lemma vanilla_european_closed_form_witness :
  (0 < 50 /\ 0 < 40 /\ 0 < 2 /\ 0 < 1 / 5) /\
  let m := VanillaEuro__init__ 50 40 2 (1 / 5) (1 / 20) (1 / 100) in
  vanilla_european_call m
  = 50 * exp (- (1 / 100 * 2)) * Phi (d1 m) - 40 * exp (- (1 / 20 * 2)) * Phi (d2 m) /\
  vanilla_european_put m
  = 40 * exp (- (1 / 20 * 2)) * Phi (- d2 m) - 50 * exp (- (1 / 100 * 2)) * Phi (- d1 m).
Proof.
  assert (H : 0 < 50 /\ 0 < 40 /\ 0 < 2 /\ 0 < 1 / 5) by (repeat split; lra).
  split; [exact H |].
  destruct H as [H1 [H2 [H3 H4]]].
  exact (vanilla_european_closed_form 50 40 2 (1 / 5) (1 / 20) (1 / 100) H1 H2 H3 H4).
Defined.

(** C4. Put-call parity: for S0, K, T, v > 0 and any r, q,
    call - put = S0 e^(-qT) - K e^(-rT). *)
Theorem put_call_parity (S0 K T v r q : R) :
  0 < S0 -> 0 < K -> 0 < T -> 0 < v ->
  let m := VanillaEuro__init__ S0 K T v r q in
  vanilla_european_call m - vanilla_european_put m
  = S0 * exp (- (q * T)) - K * exp (- (r * T)).
Proof.
  intros _ _ _ _ m. subst m.
  unfold vanilla_european_call, vanilla_european_put, VanillaEuro__init__. simpl.
  rewrite !norm_cdf_standard.
  replace (-1 * _d1 S0 K T v r q) with (- _d1 S0 K T v r q) by ring.
  replace (-1 * _d2 S0 K T v r q) with (- _d2 S0 K T v r q) by ring.
  rewrite !Phi_opp.
  replace (- q * T) with (- (q * T)) by ring.
  replace (-1 * r * T) with (- (r * T)) by ring.
  ring.
Qed.

Lemma put_call_parity_witness :
  (0 < 50 /\ 0 < 40 /\ 0 < 2 /\ 0 < 1 / 5) /\
  let m := VanillaEuro__init__ 50 40 2 (1 / 5) (1 / 20) (1 / 100) in
  vanilla_european_call m - vanilla_european_put m
  = 50 * exp (- (1 / 100 * 2)) - 40 * exp (- (1 / 20 * 2)).
Proof.
  assert (H : 0 < 50 /\ 0 < 40 /\ 0 < 2 /\ 0 < 1 / 5) by (repeat split; lra).
  split; [exact H |].
  destruct H as [H1 [H2 [H3 H4]]].
  exact (put_call_parity 50 40 2 (1 / 5) (1 / 20) (1 / 100) H1 H2 H3 H4).
Defined.

(** C7. For S0, K, T, v > 0, any r, q and any payout Q,
    bi_cashcall = Q e^(-rT) Phi(d2) and
    bi_cashput = Q e^(-rT) e^(-qT) Phi(-d2): the put leg carries the factor
    e^(-qT), the call leg does not. *)
Theorem binary_cash_formulas (S0 K T v r q Q : R) :
  0 < S0 -> 0 < K -> 0 < T -> 0 < v ->
  let m := BinaryOption__init__ S0 K T v r q in
  bi_cashcall m Q = Q * exp (- (r * T)) * Phi (d2 m) /\
  bi_cashput m Q = Q * exp (- (r * T)) * exp (- (q * T)) * Phi (- d2 m).
Proof.
  intros _ _ _ _ m. subst m.
  unfold bi_cashcall, bi_cashput, BinaryOption__init__. simpl.
  rewrite !norm_cdf_standard.
  replace (- q * T) with (- (q * T)) by ring.
  replace (-1 * r * T) with (- (r * T)) by ring.
  replace (-1 * _d2 S0 K T v r q) with (- _d2 S0 K T v r q) by ring.
  split; ring.
Qed.

Lemma binary_cash_formulas_witness :
  (0 < 50 /\ 0 < 40 /\ 0 < 2 /\ 0 < 1 / 5) /\
  let m := BinaryOption__init__ 50 40 2 (1 / 5) (1 / 20) (1 / 100) in
  bi_cashcall m 10 = 10 * exp (- (1 / 20 * 2)) * Phi (d2 m) /\
  bi_cashput m 10 = 10 * exp (- (1 / 20 * 2)) * exp (- (1 / 100 * 2)) * Phi (- d2 m).
Proof.
  assert (H : 0 < 50 /\ 0 < 40 /\ 0 < 2 /\ 0 < 1 / 5) by (repeat split; lra).
  split; [exact H |].
  destruct H as [H1 [H2 [H3 H4]]].
  exact (binary_cash_formulas 50 40 2 (1 / 5) (1 / 20) (1 / 100) 10 H1 H2 H3 H4).
Defined.

Ltac barrier_fields :=
  cbv zeta;
  cbn [BarrierOption__init__ BlackScholes.H base BSmodel__init__
       BlackScholes.K BlackScholes.S0 BlackScholes.T BlackScholes.v
       BlackScholes.r BlackScholes.q lamb y x1 y1].

(** C9. For S0, K, T, v, H > 0 and any r, q: if H <= K, up_call returns 0
    for knock = 'out' and the vanilla call for knock = 'in'; if H >= K,
    down_put returns 0 for knock = 'out' and the vanilla put for
    knock = 'in'.  Nothing is printed and nothing is raised: these branches
    evaluate no power. *)
Theorem degenerate_barrier_legs (S0 K T v r q H : R) :
  0 < S0 -> 0 < K -> 0 < T -> 0 < v -> 0 < H ->
  let b := BarrierOption__init__ S0 K T v r q H in
  let m := VanillaEuro__init__ S0 K T v r q in
  (H <= K ->
   up_call b "out" = Ok (Return [] 0) /\
   up_call b "in" = Ok (Return [] (vanilla_european_call m))) /\
  (H >= K ->
   down_put b "out" = Ok (Return [] 0) /\
   down_put b "in" = Ok (Return [] (vanilla_european_put m))).
Proof.
  intros _ _ _ _ _ b m. subst b m. split; intro HK.
  - unfold up_call. barrier_fields.
    destruct (Rle_dec H K); [| contradiction].
    split; reflexivity.
  - unfold down_put. barrier_fields.
    destruct (Rge_dec H K); [| contradiction].
    split; reflexivity.
Qed.

Lemma degenerate_barrier_legs_witness :
  (0 < 50 /\ 0 < 40 /\ 0 < 2 /\ 0 < 1 / 5 /\ 0 < 40) /\
  let b := BarrierOption__init__ 50 40 2 (1 / 5) (1 / 20) (1 / 100) 40 in
  let m := VanillaEuro__init__ 50 40 2 (1 / 5) (1 / 20) (1 / 100) in
  (40 <= 40 ->
   up_call b "out" = Ok (Return [] 0) /\
   up_call b "in" = Ok (Return [] (vanilla_european_call m))) /\
  (40 >= 40 ->
   down_put b "out" = Ok (Return [] 0) /\
   down_put b "in" = Ok (Return [] (vanilla_european_put m))).
Proof.
  assert (Hyp : 0 < 50 /\ 0 < 40 /\ 0 < 2 /\ 0 < 1 / 5 /\ 0 < 40)
    by (repeat split; lra).
  split; [exact Hyp |].
  destruct Hyp as [H1 [H2 [H3 [H4 H5]]]].
  exact (degenerate_barrier_legs 50 40 2 (1 / 5) (1 / 20) (1 / 100) 40
           H1 H2 H3 H4 H5).
Defined.

(** The inputs at which a barrier power overflows: S0 = K = T = v = 1,
    r = 3/2, q = 0, so that lambda = 2, and H = 10^100, whose fourth power
    is beyond the largest double. *)
Lemma lambda_is_2 : _lambda 1 (3 / 2) 0 = 2.
Proof. unfold _lambda. field. Qed.

Lemma fourth_power_overflows : float_max < Rpower (10 ^ 100 / 1) (2 * 2).
Proof.
  replace (10 ^ 100 / 1) with (10 ^ 100) by field.
  replace (2 * 2) with (INR 4) by (simpl; ring).
  rewrite Rpower_pow by (apply pow_lt; lra).
  rewrite <- pow_mult.
  apply Rlt_trans with (2 ^ 1024).
  - unfold float_max. rewrite (pow_IZR 2 1024). apply IZR_lt.
    vm_compute. reflexivity.
  - rewrite (pow_IZR 2 1024), (pow_IZR 10 (100 * 4)). apply IZR_lt.
    vm_compute. reflexivity.
Qed.

(** C5, as the program has it.  For S0, K, T, v > 0, any r, q and a barrier
    H >= K: whenever up_put returns (its two Python-float powers, the one of
    line 245 and the one of the dropped line 246, can raise OverflowError),
    it prints nothing, and with knock = 'in' the value is exactly
    -S0 e^(-qT) (H/S0)^(2 lambda) Phi(-y): the product that starts the next
    source line is a statement of its own and adds nothing to the value.
    With knock = 'out' the value is the vanilla put minus that quantity. *)
Theorem up_put_high_barrier (S0 K T v r q H : R) :
  0 < S0 -> 0 < K -> 0 < T -> 0 < v -> H >= K ->
  let b := BarrierOption__init__ S0 K T v r q H in
  let m := VanillaEuro__init__ S0 K T v r q in
  let pui := - S0 * exp (- (q * T)) * Rpower (H / S0) (2 * lamb b) * Phi (- y b) in
  (forall o, up_put b "in" = Ok o -> o = Return [] pui) /\
  (forall o, up_put b "out" = Ok o ->
             o = Return [] (vanilla_european_put m - pui)).
Proof.
  intros _ _ _ _ HK b m pui. subst pui b m.
  unfold up_put. barrier_fields.
  destruct (Rge_dec H K); [| contradiction].
  split; intros o E.
  - destruct (float_pow (H / S0) (2 * _lambda v r q)) as [pw |] eqn:E1;
      [| discriminate].
    apply float_pow_returned in E1. subst pw. simpl in E.
    destruct (float_pow (H / S0) (2 * _lambda v r q - 2)) as [pw' |] eqn:E2;
      [| discriminate].
    simpl in E. injection E as <-.
    rewrite norm_cdf_standard.
    replace (- q * T) with (- (q * T)) by ring. reflexivity.
  - destruct (float_pow (H / S0) (2 * _lambda v r q)) as [pw |] eqn:E1;
      [| discriminate].
    apply float_pow_returned in E1. subst pw. simpl in E.
    destruct (float_pow (H / S0) (2 * _lambda v r q - 2)) as [pw' |] eqn:E2;
      [| discriminate].
    simpl in E. injection E as <-.
    rewrite norm_cdf_standard.
    replace (- q * T) with (- (q * T)) by ring. reflexivity.
Qed.

(** At S0 = 50, K = 40, T = 2, v = 1/5, r = 1/20, q = 1/100 the exponents are
    2 lambda = 3 and 2 lambda - 2 = 1. *)
Lemma lambda_is_3_halves : _lambda (1 / 5) (1 / 20) (1 / 100) = 3 / 2.
Proof. unfold _lambda. field. Qed.

Lemma Rpower_fits (x y : R) : 0 < x -> y = 1 \/ y = 3 -> x <= 2 ->
  Rpower x y <= float_max.
Proof.
  intros Hx Hy Hx2.
  assert (Hmax : 9 <= float_max)
    by (unfold float_max; apply IZR_le; vm_compute; discriminate).
  destruct Hy as [-> | ->].
  - rewrite Rpower_1 by exact Hx. lra.
  - replace 3 with (INR 3) by (simpl; ring).
    rewrite Rpower_pow by exact Hx.
    apply Rle_trans with (2 ^ 3); [apply pow_incr; lra | simpl; lra].
Qed.

Lemma example_powers (H : R) :
  0 < H <= 100 ->
  float_pow (H / 50) (2 * _lambda (1 / 5) (1 / 20) (1 / 100))
  = Ok (Rpower (H / 50) (2 * _lambda (1 / 5) (1 / 20) (1 / 100))) /\
  float_pow (H / 50) (2 * _lambda (1 / 5) (1 / 20) (1 / 100) - 2)
  = Ok (Rpower (H / 50) (2 * _lambda (1 / 5) (1 / 20) (1 / 100) - 2)).
Proof.
  intros [H0 H100]. rewrite lambda_is_3_halves.
  split; apply float_pow_ok; apply Rpower_fits; lra.
Qed.

Lemma up_put_high_barrier_witness :
  (0 < 50 /\ 0 < 40 /\ 0 < 2 /\ 0 < 1 / 5 /\ 60 >= 40) /\
  let b := BarrierOption__init__ 50 40 2 (1 / 5) (1 / 20) (1 / 100) 60 in
  let m := VanillaEuro__init__ 50 40 2 (1 / 5) (1 / 20) (1 / 100) in
  let pui := - 50 * exp (- (1 / 100 * 2)) * Rpower (60 / 50) (2 * lamb b)
             * Phi (- y b) in
  up_put b "in" = Ok (Return [] pui) /\
  up_put b "out" = Ok (Return [] (vanilla_european_put m - pui)).
Proof.
  assert (Hyp : 0 < 50 /\ 0 < 40 /\ 0 < 2 /\ 0 < 1 / 5 /\ 60 >= 40)
    by (repeat split; lra).
  split; [exact Hyp |].
  destruct Hyp as [H1 [H2 [H3 [H4 H5]]]].
  pose proof (up_put_high_barrier 50 40 2 (1 / 5) (1 / 20) (1 / 100) 60
                H1 H2 H3 H4 H5) as Hthm.
  cbv zeta in Hthm. destruct Hthm as [Hin Hout].
  destruct (example_powers 60 ltac:(lra)) as [Ep Ep'].
  assert (Rin : exists o,
            up_put (BarrierOption__init__ 50 40 2 (1 / 5) (1 / 20) (1 / 100) 60)
              "in" = Ok o).
  { unfold up_put. barrier_fields.
    destruct (Rge_dec 60 40); [| lra].
    rewrite Ep. simpl. rewrite Ep'. simpl. eexists. reflexivity. }
  assert (Rout : exists o,
            up_put (BarrierOption__init__ 50 40 2 (1 / 5) (1 / 20) (1 / 100) 60)
              "out" = Ok o).
  { unfold up_put. barrier_fields.
    destruct (Rge_dec 60 40); [| lra].
    rewrite Ep. simpl. rewrite Ep'. simpl. eexists. reflexivity. }
  destruct Rin as [oi Ei]. destruct Rout as [oo Eo].
  cbv zeta. split.
  - rewrite Ei. f_equal. apply Hin. exact Ei.
  - rewrite Eo. f_equal. apply Hout. exact Eo.
Defined.

(** C5, as the specification words it, fails: at S0 = K = T = v = 1,
    r = 3/2, q = 0 and H = 10^100 >= K the power (H/S0)^(2 lambda) of line 245
    overflows, and up_put raises OverflowError instead of returning. *)
Lemma up_put_overflow :
  (0 < 1 /\ 0 < 1 /\ 0 < 1 /\ 0 < 1 /\ 10 ^ 100 >= 1) /\
  up_put (BarrierOption__init__ 1 1 1 1 (3 / 2) 0 (10 ^ 100)) "in"
  = Raise OverflowError /\
  ~ (exists o,
       up_put (BarrierOption__init__ 1 1 1 1 (3 / 2) 0 (10 ^ 100)) "in" = Ok o).
Proof.
  assert (Hbig : 10 ^ 100 >= 1).
  { apply Rle_ge. rewrite <- (pow1 100). apply pow_incr. lra. }
  assert (E : up_put (BarrierOption__init__ 1 1 1 1 (3 / 2) 0 (10 ^ 100)) "in"
              = Raise OverflowError).
  { unfold up_put. barrier_fields.
    destruct (Rge_dec (10 ^ 100) 1); [| contradiction].
    rewrite lambda_is_2.
    rewrite (float_pow_overflow _ _ fourth_power_overflows). reflexivity. }
  split; [repeat split; try lra; exact Hbig |].
  split; [exact E |].
  intros [o Ho]. rewrite E in Ho. discriminate.
Qed.




End BlackScholesTheorems.

(* ===================================================================== *)
(** * Binomial pricer: further properties                                 *)
(* ===================================================================== *)

Module BinomialTreeProperties.

Import BinomialTree PyFacts FloatFacts NpFacts BinomialTreeLemmas RealFloatFacts.

(** X1. In every floating-point arithmetic the stock-tree block returns
    exactly when no power u**n or d**n with n <= N overflows (line 42 raises
    otherwise).  The array it then returns has N+1 rows and N+1 columns (an
    index beyond N raises IndexError); entry (i, j) is S0 u^(j-i) d^i for
    i <= j and is still the initial zero for i > j. *)
Theorem BiTree_Construction_triangular {A : Arith} (S0 u d : F) (N : nat) :
  (powers_fit u d N ->
   exists stock_tree,
     BiTree_Construction S0 u d N = Ok stock_tree /\
     (forall i j, (i <= N)%nat -> (j <= N)%nat ->
        getitem stock_tree i j
        = Ok (if (i <=? j)%nat
              then fmul (fmul S0 (fpow u (j - i))) (fpow d i)
              else of_Z 0)) /\
     (forall i j, (N < i)%nat \/ (N < j)%nat ->
        getitem stock_tree i j = Raise IndexError)) /\
  (forall stock_tree,
     BiTree_Construction S0 u d N = Ok stock_tree -> powers_fit u d N).
Proof.
  split.
  - intro Hfit.
    destruct (BiTree_Construction_cells S0 u d N Hfit) as [st [Est [Hsh Hcells]]].
    exists st. split; [exact Est |]. split.
    + intros i j Hi Hj.
      rewrite (getitem_ok _ (of_Z 0) st (N + 1) (N + 1)) by (auto; lia).
      rewrite Hcells by exact Hj. reflexivity.
    + intros i j Hij.
      destruct (Nat.le_gt_cases (N + 1) i) as [Hi | Hi].
      * apply (getitem_row_out_of_range _ st (N + 1) (N + 1)); assumption.
      * apply (getitem_column_out_of_range _ st (N + 1) (N + 1)); auto; lia.
  - intros st Est. exact (BiTree_Construction_returned S0 u d N st Est).
Qed.

(** X2. In real arithmetic, with d = 1/u as the pricer sets it: whenever the
    stock-tree block returns, the tree recombines, an up move and a down
    move lead back to the same price: entry (i+1, j+2) equals entry (i, j). *)
Theorem stock_tree_recombines (S0 u : R) (N : nat) (stock_tree : ndarray R) :
  u <> 0 ->
  BiTree_Construction (A := real) S0 u (1 / u) N = Ok stock_tree ->
  forall i j, (i <= j)%nat -> (j + 2 <= N)%nat ->
    getitem stock_tree (i + 1) (j + 2) = getitem stock_tree i j.
Proof.
  intros Hu Est i j Hij Hj.
  pose proof (BiTree_Construction_returned (A := real) _ _ _ _ _ Est) as Hfit.
  destruct (BiTree_Construction_cells (A := real) S0 u (1 / u) N Hfit)
    as [st [Est' [Hsh Hcells]]].
  rewrite Est in Est'. injection Est' as <-.
  rewrite !(getitem_ok _ (of_Z (Arith := real) 0) stock_tree (N + 1) (N + 1))
    by (auto; lia).
  rewrite !Hcells by lia.
  destruct (Nat.leb_spec (i + 1) (j + 2)); [| lia].
  destruct (Nat.leb_spec i j); [| lia].
  f_equal. unfold spec_stock.
  replace (j + 2 - (i + 1))%nat with (S (j - i)) by lia.
  replace (i + 1)%nat with (S i) by lia.
  simpl. field. exact Hu.
Qed.

Lemma stock_tree_recombines_witness :
  exists stock_tree,
    (spec_u 1 (3 / 10) 3 <> 0 /\
     BiTree_Construction (A := real) 50 (spec_u 1 (3 / 10) 3)
       (1 / spec_u 1 (3 / 10) 3) 3 = Ok stock_tree) /\
    forall i j, (i <= j)%nat -> (j + 2 <= 3)%nat ->
      getitem stock_tree (i + 1) (j + 2) = getitem stock_tree i j.
Proof.
  destruct (example_tree_fits 0 0 3 ltac:(lia) ltac:(lra)) as [_ [Hfit _]].
  destruct (BiTree_Construction_cells (A := real) 50 _ _ 3 Hfit)
    as [st [Est _]].
  assert (Hu : spec_u 1 (3 / 10) 3 <> 0)
    by (pose proof (spec_u_gt_1 1 (3 / 10) 3 ltac:(lra) ltac:(lra) ltac:(lia));
        lra).
  exists st. split; [split; [exact Hu | exact Est] |].
  exact (stock_tree_recombines 50 (spec_u 1 (3 / 10) 3) 3 st Hu Est).
Defined.

(** X3. In every floating-point arithmetic a step count of 0 raises
    ZeroDivisionError at T / N, whatever the other arguments are; in
    particular an unknown option type is not reported then. *)
Theorem AmericanOption_no_steps {A : Arith} (S0 K T v r q : F)
  (CallorPut : string) :
  AmericanOption S0 K T v r q 0 CallorPut = Raise ZeroDivisionError.
Proof. apply AmericanOption_zero_steps. Qed.

(** X4. In every floating-point arithmetic: when N >= 1 and the step length
    dt = T / N is negative as a float (a negative zero is not), the call
    raises ValueError at the square root of line 32, whatever the other
    arguments are. *)
Theorem AmericanOption_negative_T {A : Arith} (S0 K T v r q : F) (N : nat)
  (CallorPut : string) (dt : F) :
  truediv_int T N = Ok dt ->
  is_negative dt = true ->
  AmericanOption S0 K T v r q N CallorPut = Raise ValueError.
Proof.
  intros Edt Hneg. unfold AmericanOption, BiTree_Parameters.
  rewrite Edt. cbn [bind]. unfold math_sqrt. rewrite Hneg. reflexivity.
Qed.

Lemma AmericanOption_negative_T_witness :
  (truediv_int (A := real) (-1) 4 = Ok (-1 / 4) /\
   is_negative (Arith := real) (-1 / 4) = true) /\
  AmericanOption (A := real) 50 50 (-1) (3 / 10) (1 / 20) 0 4 "call"
  = Raise ValueError.
Proof.
  assert (H : truediv_int (A := real) (-1) 4 = Ok (-1 / 4) /\
              is_negative (Arith := real) (-1 / 4) = true).
  { split; [reflexivity |]. simpl.
    destruct (Rlt_dec (-1 / 4) 0); [reflexivity | lra]. }
  split; [exact H |]. destruct H as [H1 H2].
  exact (AmericanOption_negative_T (A := real) 50 50 (-1) (3 / 10) (1 / 20) 0 4
           "call" (-1 / 4) H1 H2).
Defined.

(** X5. In every floating-point arithmetic: when the up and down factors of
    lines 32-33 come out equal, so that u - d is zero (a zero volatility or
    maturity, or a move v sqrt(dt) so small that exp returns 1.0), the call
    returns no price, whatever the option type is: it raises OverflowError at
    line 34 if the exponential of (r - q) dt overflows, and otherwise
    ZeroDivisionError at the division by u - d of line 35. *)
Theorem AmericanOption_flat_tree {A : Arith} (S0 K T v r q : F) (N : nat)
  (CallorPut : string) (dt s u d : F) :
  truediv_int T N = Ok dt ->
  math_sqrt dt = Ok s ->
  math_exp (fmul v s) = Ok u ->
  truediv (of_Z 1) u = Ok d ->
  is_zero (fsub u d) = true ->
  AmericanOption S0 K T v r q N CallorPut
  = (if exp_overflows (fmul (fsub r q) dt) then Raise OverflowError
     else Raise ZeroDivisionError).
Proof.
  intros Edt Es Eu Ed Hflat.
  unfold AmericanOption, BiTree_Parameters.
  rewrite Edt. cbn [bind]. rewrite Es. cbn [bind]. rewrite Eu. cbn [bind].
  rewrite Ed. cbn [bind]. unfold math_exp.
  destruct (exp_overflows (fmul (fsub r q) dt)); cbn [bind]; [reflexivity |].
  unfold truediv. rewrite Hflat. reflexivity.
Qed.

Lemma AmericanOption_flat_tree_witness :
  let dt := 1 / 5 in
  let s := sqrt dt in
  let u := exp (0 * s) in
  let d := 1 / u in
  (truediv_int (A := real) 1 5 = Ok dt /\
   math_sqrt (A := real) dt = Ok s /\
   math_exp (A := real) (0 * s) = Ok u /\
   truediv (A := real) 1 u = Ok d /\
   is_zero (Arith := real) (u - d) = true) /\
  AmericanOption (A := real) 50 50 1 0 (1 / 20) 0 5 "put"
  = (if exp_overflows (Arith := real) ((1 / 20 - 0) * dt)
     then Raise OverflowError else Raise ZeroDivisionError).
Proof.
  intros dt s u d.
  assert (Eu1 : u = 1) by (unfold u; rewrite Rmult_0_l; apply exp_0).
  assert (H : truediv_int (A := real) 1 5 = Ok dt /\
              math_sqrt (A := real) dt = Ok s /\
              math_exp (A := real) (0 * s) = Ok u /\
              truediv (A := real) 1 u = Ok d /\
              is_zero (Arith := real) (u - d) = true).
  { split; [reflexivity |]. split.
    { unfold math_sqrt. rewrite real_is_negative_false by (unfold dt; lra).
      reflexivity. }
    split.
    { unfold math_exp. rewrite real_exp_fits; [reflexivity |].
      fold u. rewrite Eu1. pose proof float_max_ge_9. lra. }
    split.
    { unfold truediv. rewrite real_is_zero_false by lra. reflexivity. }
    apply real_is_zero_true. unfold d. rewrite Eu1. field. }
  split; [exact H |]. destruct H as [H1 [H2 [H3 [H4 H5]]]].
  exact (AmericanOption_flat_tree (A := real) 50 50 1 0 (1 / 20) 0 5 "put"
           dt s u d H1 H2 H3 H4 H5).
Defined.

(** X6. Whenever [AmericanOption] returns a price for the option type 'call'
    or 'put', the price is, in real arithmetic, never below the value of
    immediate exercise: S0 - K for a call, K - S0 for a put. *)
Theorem AmericanOption_at_least_exercise (S0 K T v r q : R) (N : nat) (k : kind)
  (o : outcome R) :
  AmericanOption (A := real) S0 K T v r q N (kind_name k) = Ok o ->
  match k with call => S0 - K | put => K - S0 end <= retval o.
Proof.
  intro E. destruct (AmericanOption_real_returned _ _ _ _ _ _ _ _ _ E) as [_ ->].
  simpl. unfold spec_price.
  pose proof (spec_option_ge_exercise k S0 K (spec_u T v N) (spec_d T v N)
                (spec_a T r q N) (spec_p T v r q N) N 0 0) as H.
  rewrite spec_stock_root in H. destruct k; exact H.
Qed.

Lemma AmericanOption_at_least_exercise_witness :
  AmericanOption (A := real) 40 50 1 (3 / 10) (1 / 20) 0 3 "put"
  = Ok (Return [] (spec_price put 40 50 1 (3 / 10) (1 / 20) 0 3)) /\
  50 - 40 <= spec_price put 40 50 1 (3 / 10) (1 / 20) 0 3.
Proof.
  assert (E : AmericanOption (A := real) 40 50 1 (3 / 10) (1 / 20) 0 3 "put"
              = Ok (Return [] (spec_price put 40 50 1 (3 / 10) (1 / 20) 0 3)))
    by (apply (example_price 40 50 (1 / 20) 0 3 put); [lia | lra]).
  split; [exact E |].
  exact (AmericanOption_at_least_exercise 40 50 1 (3 / 10) (1 / 20) 0 3 put _ E).
Defined.

(** X7. Whenever [AmericanOption] returns a price for T > 0, v > 0 and a
    growth over one step within the volatility move, |(r - q) dt| <= v sqrt dt
    with dt = T/N (so that d <= a <= u and the probability p is in [0, 1]),
    the price is, in real arithmetic, non-negative. *)
Theorem AmericanOption_nonnegative (S0 K T v r q : R) (N : nat) (k : kind)
  (o : outcome R) :
  0 < T -> 0 < v ->
  - (v * sqrt (T / INR N)) <= (r - q) * (T / INR N) <= v * sqrt (T / INR N) ->
  AmericanOption (A := real) S0 K T v r q N (kind_name k) = Ok o ->
  0 <= retval o.
Proof.
  intros HT Hv Hgrowth E.
  destruct (AmericanOption_real_returned _ _ _ _ _ _ _ _ _ E) as [HN ->].
  simpl. unfold spec_price. apply spec_option_nonneg.
  - apply spec_a_pos.
  - apply spec_p_in_unit_interval; assumption.
Qed.

Lemma growth_zero (N : nat) :
  - (3 / 10 * sqrt (1 / INR N)) <= (0 - 0) * (1 / INR N)
  <= 3 / 10 * sqrt (1 / INR N).
Proof. pose proof (sqrt_pos (1 / INR N)). split; lra. Qed.

Lemma AmericanOption_nonnegative_witness :
  (0 < 1 /\ 0 < 3 / 10 /\
   - (3 / 10 * sqrt (1 / INR 4)) <= (0 - 0) * (1 / INR 4)
     <= 3 / 10 * sqrt (1 / INR 4) /\
   AmericanOption (A := real) 50 60 1 (3 / 10) 0 0 4 "call"
   = Ok (Return [] (spec_price call 50 60 1 (3 / 10) 0 0 4))) /\
  0 <= spec_price call 50 60 1 (3 / 10) 0 0 4.
Proof.
  assert (H : 0 < 1 /\ 0 < 3 / 10 /\
              - (3 / 10 * sqrt (1 / INR 4)) <= (0 - 0) * (1 / INR 4)
                <= 3 / 10 * sqrt (1 / INR 4) /\
              AmericanOption (A := real) 50 60 1 (3 / 10) 0 0 4 "call"
              = Ok (Return [] (spec_price call 50 60 1 (3 / 10) 0 0 4))).
  { split; [lra |]. split; [lra |]. split; [apply growth_zero |].
    apply (example_price 50 60 0 0 4 call); [lia | lra]. }
  split; [exact H |]. destruct H as [H1 [H2 [H3 H4]]].
  exact (AmericanOption_nonnegative 50 60 1 (3 / 10) 0 0 4 call _ H1 H2 H3 H4).
Defined.

(** X8. The price is homogeneous of degree one in (S0, K): whenever the
    pricer returns for (S0, K) and for (c S0, c K) with c > 0 and the same
    other arguments, the second price is, in real arithmetic, c times the
    first. *)
Theorem AmericanOption_homogeneous (c S0 K T v r q : R) (N : nat) (k : kind)
  (o o' : outcome R) :
  0 < c ->
  AmericanOption (A := real) S0 K T v r q N (kind_name k) = Ok o ->
  AmericanOption (A := real) (c * S0) (c * K) T v r q N (kind_name k) = Ok o' ->
  retval o' = c * retval o.
Proof.
  intros Hc E E'.
  destruct (AmericanOption_real_returned _ _ _ _ _ _ _ _ _ E) as [_ ->].
  destruct (AmericanOption_real_returned _ _ _ _ _ _ _ _ _ E') as [_ ->].
  simpl. unfold spec_price. apply spec_option_scale. lra.
Qed.

Lemma AmericanOption_homogeneous_witness :
  (0 < 100 /\
   AmericanOption (A := real) 50 60 1 (3 / 10) (1 / 20) 0 3 "put"
   = Ok (Return [] (spec_price put 50 60 1 (3 / 10) (1 / 20) 0 3)) /\
   AmericanOption (A := real) (100 * 50) (100 * 60) 1 (3 / 10) (1 / 20) 0 3 "put"
   = Ok (Return []
           (spec_price put (100 * 50) (100 * 60) 1 (3 / 10) (1 / 20) 0 3))) /\
  spec_price put (100 * 50) (100 * 60) 1 (3 / 10) (1 / 20) 0 3
  = 100 * spec_price put 50 60 1 (3 / 10) (1 / 20) 0 3.
Proof.
  assert (H : 0 < 100 /\
    AmericanOption (A := real) 50 60 1 (3 / 10) (1 / 20) 0 3 "put"
    = Ok (Return [] (spec_price put 50 60 1 (3 / 10) (1 / 20) 0 3)) /\
    AmericanOption (A := real) (100 * 50) (100 * 60) 1 (3 / 10) (1 / 20) 0 3 "put"
    = Ok (Return []
            (spec_price put (100 * 50) (100 * 60) 1 (3 / 10) (1 / 20) 0 3))).
  { split; [lra |].
    split; apply (example_price _ _ (1 / 20) 0 3 put); try lia; lra. }
  split; [exact H |]. destruct H as [H1 [H2 H3]].
  exact (AmericanOption_homogeneous 100 50 60 1 (3 / 10) (1 / 20) 0 3 put _ _
           H1 H2 H3).
Defined.

(** X21. Monotonicity in the strike: whenever the pricer returns for the
    strikes K <= K' (for the call and for the put), with T > 0, v > 0 and
    |(r - q) dt| <= v sqrt dt, dt = T/N, then in real arithmetic the call at
    K' costs no more than the call at K, and the put at K costs no more than
    the put at K'. *)
Theorem AmericanOption_strike_monotone (S0 K K' T v r q : R) (N : nat)
  (c c' p p' : outcome R) :
  0 < T -> 0 < v ->
  - (v * sqrt (T / INR N)) <= (r - q) * (T / INR N) <= v * sqrt (T / INR N) ->
  K <= K' ->
  AmericanOption (A := real) S0 K T v r q N "call" = Ok c ->
  AmericanOption (A := real) S0 K' T v r q N "call" = Ok c' ->
  AmericanOption (A := real) S0 K T v r q N "put" = Ok p ->
  AmericanOption (A := real) S0 K' T v r q N "put" = Ok p' ->
  retval c' <= retval c /\ retval p <= retval p'.
Proof.
  intros HT Hv Hgrowth HK Ec Ec' Ep Ep'.
  destruct (AmericanOption_real_returned S0 K T v r q N call c Ec) as [HN ->].
  destruct (AmericanOption_real_returned S0 K' T v r q N call c' Ec') as [_ ->].
  destruct (AmericanOption_real_returned S0 K T v r q N put p Ep) as [_ ->].
  destruct (AmericanOption_real_returned S0 K' T v r q N put p' Ep') as [_ ->].
  pose proof (spec_a_pos T r q N) as Ha.
  pose proof (spec_p_in_unit_interval T v r q N HT Hv HN Hgrowth) as Hp.
  simpl. unfold spec_price. split.
  - apply spec_option_call_strike; assumption.
  - apply spec_option_put_strike; assumption.
Qed.

Lemma AmericanOption_strike_monotone_witness :
  (0 < 1 /\ 0 < 3 / 10 /\
   - (3 / 10 * sqrt (1 / INR 4)) <= (0 - 0) * (1 / INR 4)
     <= 3 / 10 * sqrt (1 / INR 4) /\
   50 <= 60 /\
   AmericanOption (A := real) 55 50 1 (3 / 10) 0 0 4 "call"
   = Ok (Return [] (spec_price call 55 50 1 (3 / 10) 0 0 4)) /\
   AmericanOption (A := real) 55 60 1 (3 / 10) 0 0 4 "call"
   = Ok (Return [] (spec_price call 55 60 1 (3 / 10) 0 0 4)) /\
   AmericanOption (A := real) 55 50 1 (3 / 10) 0 0 4 "put"
   = Ok (Return [] (spec_price put 55 50 1 (3 / 10) 0 0 4)) /\
   AmericanOption (A := real) 55 60 1 (3 / 10) 0 0 4 "put"
   = Ok (Return [] (spec_price put 55 60 1 (3 / 10) 0 0 4))) /\
  spec_price call 55 60 1 (3 / 10) 0 0 4 <= spec_price call 55 50 1 (3 / 10) 0 0 4 /\
  spec_price put 55 50 1 (3 / 10) 0 0 4 <= spec_price put 55 60 1 (3 / 10) 0 0 4.
Proof.
  assert (Hprice : forall K k,
            AmericanOption (A := real) 55 K 1 (3 / 10) 0 0 4 (kind_name k)
            = Ok (Return [] (spec_price k 55 K 1 (3 / 10) 0 0 4)))
    by (intros K k; apply (example_price 55 K 0 0 4 k); [lia | lra]).
  pose proof (Hprice 50 call) as E1. pose proof (Hprice 60 call) as E2.
  pose proof (Hprice 50 put) as E3. pose proof (Hprice 60 put) as E4.
  simpl kind_name in E1, E2, E3, E4.
  assert (H1 : 0 < 1) by lra. assert (H2 : 0 < 3 / 10) by lra.
  assert (H4 : 50 <= 60) by lra.
  split.
  - split; [exact H1 |]. split; [exact H2 |]. split; [apply growth_zero |].
    split; [exact H4 |]. repeat split; assumption.
  - exact (AmericanOption_strike_monotone 55 50 60 1 (3 / 10) 0 0 4 _ _ _ _
             H1 H2 (growth_zero 4) H4 E1 E2 E3 E4).
Defined.

End BinomialTreeProperties.

(* ===================================================================== *)
(** * Analytic pricers: further lemmas                                    *)
(* ===================================================================== *)

Module BlackScholesMoreLemmas.

Import BlackScholes NormFacts BlackScholesLemmas.

Lemma gauss_area_nonneg (lo hi : R) : lo <= hi -> 0 <= gauss_area lo hi.
Proof.
  intro Hle. unfold gauss_area.
  pose proof (RiemannInt_P19 (RiemannInt_P14 lo hi 0) (gauss_integrable lo hi) Hle)
    as Hcmp.
  rewrite RiemannInt_P15 in Hcmp. rewrite Rmult_0_l in Hcmp.
  apply Hcmp. intros x _. unfold fct_cte, gauss. left. apply exp_pos.
Qed.

(** The distribution function is non-decreasing. *)
Lemma Phi_monotone (x x' : R) : x <= x' -> Phi x <= Phi x'.
Proof.
  intro Hle. unfold Phi.
  pose proof (gauss_area_chasles 0 x x') as Hsum.
  pose proof (gauss_area_nonneg x x' Hle) as Hpos.
  assert (Hc : 0 < / sqrt (2 * PI)).
  { apply Rinv_0_lt_compat, sqrt_lt_R0. pose proof PI_RGT_0. lra. }
  apply Rplus_le_compat_l. apply Rmult_le_compat_l; lra.
Qed.

(** Put-call parity on the two methods. *)
Lemma call_minus_put (S0 K T v r q : R) :
  vanilla_european_call (VanillaEuro__init__ S0 K T v r q)
  - vanilla_european_put (VanillaEuro__init__ S0 K T v r q)
  = S0 * exp (- (q * T)) - K * exp (- (r * T)).
Proof.
  unfold vanilla_european_call, vanilla_european_put, VanillaEuro__init__. simpl.
  rewrite !norm_cdf_standard.
  replace (-1 * _d1 S0 K T v r q) with (- _d1 S0 K T v r q) by ring.
  replace (-1 * _d2 S0 K T v r q) with (- _d2 S0 K T v r q) by ring.
  rewrite !Phi_opp.
  replace (- q * T) with (- (q * T)) by ring.
  replace (-1 * r * T) with (- (r * T)) by ring.
  ring.
Qed.

(** The drift term of d1 is lambda v sqrt(T). *)
Lemma d1_by_lambda (S0 K T v r q : R) :
  0 < T -> 0 < v ->
  _d1 S0 K T v r q = ln (S0 / K) / (v * sqrt T) + _lambda v r q * v * sqrt T.
Proof.
  intros HT Hv. pose proof (sqrt_T_pos T HT) as Hs.
  unfold _d1, _lambda.
  assert (E : T = sqrt T * sqrt T) by (symmetry; apply sqrt_sqrt; lra).
  rewrite E at 1. field. split; lra.
Qed.

Lemma d2_by_lambda (S0 K T v r q : R) :
  0 < T -> 0 < v ->
  _d2 S0 K T v r q
  = ln (S0 / K) / (v * sqrt T) + _lambda v r q * v * sqrt T - v * sqrt T.
Proof.
  intros HT Hv. rewrite d2_is_d1_minus, d1_by_lambda by assumption. reflexivity.
Qed.

(** The barrier quantities when the barrier is at the spot. *)
Lemma x1_at_spot (S0 T v lamb : R) :
  0 < S0 -> _x1 S0 T v S0 lamb = lamb * v * sqrt T.
Proof.
  intro HS. unfold _x1. replace (S0 / S0) with 1 by (field; lra).
  rewrite ln_1. unfold Rdiv. ring.
Qed.

Lemma y1_at_spot (S0 T v lamb : R) :
  0 < S0 -> _y1 S0 T v S0 lamb = lamb * v * sqrt T.
Proof.
  intro HS. unfold _y1. replace (S0 / S0) with 1 by (field; lra).
  rewrite ln_1. unfold Rdiv. ring.
Qed.

Lemma y_at_spot (S0 K T v r q : R) :
  0 < S0 -> 0 < K -> 0 < T -> 0 < v ->
  _y S0 K T v S0 (_lambda v r q) = _d1 S0 K T v r q.
Proof.
  intros HS HK HT Hv. rewrite d1_by_lambda by assumption. unfold _y.
  replace (S0 ^ 2 / (S0 * K)) with (S0 / K) by (field; lra).
  reflexivity.
Qed.

End BlackScholesMoreLemmas.

Module BlackScholesProperties.

Import BlackScholes NormFacts BlackScholesLemmas BlackScholesMoreLemmas.

(** X9. Put-call parity carries over to the spreads: for S0, K, K2, T, v > 0,
    bull_call - bull_put = (K - K2) e^(-rT) and
    bear_call - bear_put = (K2 - K) e^(-rT); the spot and the dividend rate
    cancel. *)
Theorem spread_put_call_parity (S0 K T v r q K2 : R) :
  0 < S0 -> 0 < K -> 0 < T -> 0 < v -> 0 < K2 ->
  let m := SpreadOption__init__ S0 K T v r q in
  bull_call m K2 - bull_put m K2 = (K - K2) * exp (- (r * T)) /\
  bear_call m K2 - bear_put m K2 = (K2 - K) * exp (- (r * T)).
Proof.
  intros _ _ _ _ _ m. subst m.
  unfold bull_call, bull_put, bear_call, bear_put, SpreadOption__init__.
  cbn [BSmodel__init__ BlackScholes.S0 BlackScholes.K BlackScholes.T
       BlackScholes.v BlackScholes.r BlackScholes.q].
  pose proof (call_minus_put S0 K T v r q) as E1.
  pose proof (call_minus_put S0 K2 T v r q) as E2.
  set (c1 := vanilla_european_call (VanillaEuro__init__ S0 K T v r q)) in *.
  set (p1 := vanilla_european_put (VanillaEuro__init__ S0 K T v r q)) in *.
  set (c2 := vanilla_european_call (VanillaEuro__init__ S0 K2 T v r q)) in *.
  set (p2 := vanilla_european_put (VanillaEuro__init__ S0 K2 T v r q)) in *.
  split.
  - replace (c2 - c1 - (p2 - p1)) with ((c2 - p2) - (c1 - p1)) by ring.
    rewrite E1, E2. ring.
  - replace (c1 - c2 - (p1 - p2)) with ((c1 - p1) - (c2 - p2)) by ring.
    rewrite E1, E2. ring.
Qed.

Lemma spread_put_call_parity_witness :
  (0 < 50 /\ 0 < 40 /\ 0 < 2 /\ 0 < 1 / 5 /\ 0 < 60) /\
  let m := SpreadOption__init__ 50 40 2 (1 / 5) (1 / 20) (1 / 100) in
  bull_call m 60 - bull_put m 60 = (40 - 60) * exp (- (1 / 20 * 2)) /\
  bear_call m 60 - bear_put m 60 = (60 - 40) * exp (- (1 / 20 * 2)).
Proof.
  assert (Hyp : 0 < 50 /\ 0 < 40 /\ 0 < 2 /\ 0 < 1 / 5 /\ 0 < 60)
    by (repeat split; lra).
  split; [exact Hyp |]. destruct Hyp as [H1 [H2 [H3 [H4 H5]]]].
  exact (spread_put_call_parity 50 40 2 (1 / 5) (1 / 20) (1 / 100) 60
           H1 H2 H3 H4 H5).
Defined.

(** X10. The two legs of a binary complement each other once the extra
    dividend factor of the put leg is undone: for S0, K, T, v > 0,
    bi_cashcall + e^(qT) bi_cashput = Q e^(-rT) and
    bi_assetcall + e^(qT) bi_assetput = S0 e^(-rT). *)
Theorem binary_legs_complement (S0 K T v r q Q : R) :
  0 < S0 -> 0 < K -> 0 < T -> 0 < v ->
  let m := BinaryOption__init__ S0 K T v r q in
  bi_cashcall m Q + exp (q * T) * bi_cashput m Q = Q * exp (- (r * T)) /\
  bi_assetcall m + exp (q * T) * bi_assetput m = S0 * exp (- (r * T)).
Proof.
  intros _ _ _ _ m. subst m.
  unfold bi_cashcall, bi_cashput, bi_assetcall, bi_assetput, BinaryOption__init__.
  cbn [BSmodel__init__ BlackScholes.S0 BlackScholes.K BlackScholes.T
       BlackScholes.v BlackScholes.r BlackScholes.q d1 d2].
  rewrite !norm_cdf_standard.
  replace (-1 * _d1 S0 K T v r q) with (- _d1 S0 K T v r q) by ring.
  replace (-1 * _d2 S0 K T v r q) with (- _d2 S0 K T v r q) by ring.
  rewrite !Phi_opp.
  replace (- q * T) with (- (q * T)) by ring.
  replace (-1 * r * T) with (- (r * T)) by ring.
  assert (E : exp (q * T) * exp (- (q * T)) = 1)
    by (rewrite <- exp_plus, Rplus_opp_r; apply exp_0).
  split.
  - replace (exp (q * T) * (Q * exp (- (r * T)) * (1 - Phi (_d2 S0 K T v r q))
                            * exp (- (q * T))))
      with (exp (q * T) * exp (- (q * T))
            * (Q * exp (- (r * T)) * (1 - Phi (_d2 S0 K T v r q)))) by ring.
    rewrite E. ring.
  - replace (exp (q * T) * (S0 * exp (- (r * T)) * (1 - Phi (_d1 S0 K T v r q))
                            * exp (- (q * T))))
      with (exp (q * T) * exp (- (q * T))
            * (S0 * exp (- (r * T)) * (1 - Phi (_d1 S0 K T v r q)))) by ring.
    rewrite E. ring.
Qed.

Lemma binary_legs_complement_witness :
  (0 < 50 /\ 0 < 40 /\ 0 < 2 /\ 0 < 1 / 5) /\
  let m := BinaryOption__init__ 50 40 2 (1 / 5) (1 / 20) (1 / 100) in
  bi_cashcall m 10 + exp (1 / 100 * 2) * bi_cashput m 10
  = 10 * exp (- (1 / 20 * 2)) /\
  bi_assetcall m + exp (1 / 100 * 2) * bi_assetput m = 50 * exp (- (1 / 20 * 2)).
Proof.
  assert (Hyp : 0 < 50 /\ 0 < 40 /\ 0 < 2 /\ 0 < 1 / 5) by (repeat split; lra).
  split; [exact Hyp |]. destruct Hyp as [H1 [H2 [H3 H4]]].
  exact (binary_legs_complement 50 40 2 (1 / 5) (1 / 20) (1 / 100) 10 H1 H2 H3 H4).
Defined.

(** X11. The vanilla prices in terms of the binaries, as the code has them:
    for S0, K, T, v > 0,
    call = e^((r-q)T) bi_assetcall - bi_cashcall(K) and
    put = e^(qT) bi_cashput(K) - e^(rT) bi_assetput. *)
Theorem vanilla_from_binaries (S0 K T v r q : R) :
  0 < S0 -> 0 < K -> 0 < T -> 0 < v ->
  let m := BSmodel__init__ S0 K T v r q in
  vanilla_european_call m
  = exp ((r - q) * T) * bi_assetcall m - bi_cashcall m K /\
  vanilla_european_put m
  = exp (q * T) * bi_cashput m K - exp (r * T) * bi_assetput m.
Proof.
  intros _ _ _ _ m. subst m.
  unfold vanilla_european_call, vanilla_european_put,
    bi_cashcall, bi_cashput, bi_assetcall, bi_assetput.
  cbn [BSmodel__init__ BlackScholes.S0 BlackScholes.K BlackScholes.T
       BlackScholes.v BlackScholes.r BlackScholes.q d1 d2].
  replace (- q * T) with (- (q * T)) by ring.
  replace (-1 * r * T) with (- (r * T)) by ring.
  assert (Eq : exp (q * T) * exp (- (q * T)) = 1)
    by (rewrite <- exp_plus, Rplus_opp_r; apply exp_0).
  assert (Er : exp (r * T) * exp (- (r * T)) = 1)
    by (rewrite <- exp_plus, Rplus_opp_r; apply exp_0).
  assert (Erq : exp ((r - q) * T) * exp (- (r * T)) = exp (- (q * T)))
    by (rewrite <- exp_plus; f_equal; ring).
  set (P1 := norm_cdf (_d1 S0 K T v r q) 0 1).
  set (M1 := norm_cdf (-1 * _d1 S0 K T v r q) 0 1).
  set (M2 := norm_cdf (-1 * _d2 S0 K T v r q) 0 1).
  split.
  - replace (exp ((r - q) * T) * (S0 * exp (- (r * T)) * P1))
      with (exp ((r - q) * T) * exp (- (r * T)) * (S0 * P1)) by ring.
    rewrite Erq. ring.
  - replace (exp (q * T) * (K * exp (- (r * T)) * M2 * exp (- (q * T))))
      with (exp (q * T) * exp (- (q * T)) * (K * exp (- (r * T)) * M2)) by ring.
    replace (exp (r * T) * (S0 * exp (- (r * T)) * M1 * exp (- (q * T))))
      with (exp (r * T) * exp (- (r * T)) * (S0 * M1 * exp (- (q * T)))) by ring.
    rewrite Eq, Er. ring.
Qed.

Lemma vanilla_from_binaries_witness :
  (0 < 50 /\ 0 < 40 /\ 0 < 2 /\ 0 < 1 / 5) /\
  let m := BSmodel__init__ 50 40 2 (1 / 5) (1 / 20) (1 / 100) in
  vanilla_european_call m
  = exp ((1 / 20 - 1 / 100) * 2) * bi_assetcall m - bi_cashcall m 40 /\
  vanilla_european_put m
  = exp (1 / 100 * 2) * bi_cashput m 40 - exp (1 / 20 * 2) * bi_assetput m.
Proof.
  assert (Hyp : 0 < 50 /\ 0 < 40 /\ 0 < 2 /\ 0 < 1 / 5) by (repeat split; lra).
  split; [exact Hyp |]. destruct Hyp as [H1 [H2 [H3 H4]]].
  exact (vanilla_from_binaries 50 40 2 (1 / 5) (1 / 20) (1 / 100) H1 H2 H3 H4).
Defined.

(** X12. An asset-or-nothing call is worth at least a cash-or-nothing call
    that pays the spot, and the other way round for the puts: for
    S0, K, T, v > 0, bi_cashcall(S0) <= bi_assetcall and
    bi_assetput <= bi_cashput(S0). *)
Theorem binary_asset_against_cash (S0 K T v r q : R) :
  0 < S0 -> 0 < K -> 0 < T -> 0 < v ->
  let m := BinaryOption__init__ S0 K T v r q in
  bi_cashcall m S0 <= bi_assetcall m /\ bi_assetput m <= bi_cashput m S0.
Proof.
  intros HS _ HT Hv m. subst m.
  unfold bi_cashcall, bi_cashput, bi_assetcall, bi_assetput, BinaryOption__init__.
  cbn [BSmodel__init__ BlackScholes.S0 BlackScholes.K BlackScholes.T
       BlackScholes.v BlackScholes.r BlackScholes.q d1 d2].
  rewrite !norm_cdf_standard.
  pose proof (d2_is_d1_minus S0 K T v r q HT Hv) as E.
  pose proof (sqrt_T_pos T HT) as Hs.
  assert (Hd : _d2 S0 K T v r q <= _d1 S0 K T v r q).
  { rewrite E. assert (0 < v * sqrt T) by (apply Rmult_lt_0_compat; lra). lra. }
  pose proof (Phi_monotone _ _ Hd) as Hup.
  assert (Hd' : -1 * _d1 S0 K T v r q <= -1 * _d2 S0 K T v r q) by lra.
  pose proof (Phi_monotone _ _ Hd') as Hdown.
  pose proof (exp_pos (-1 * r * T)) as Hr. pose proof (exp_pos (- q * T)) as Hq.
  assert (Hc : 0 < S0 * exp (-1 * r * T)) by (apply Rmult_lt_0_compat; lra).
  split.
  - apply Rmult_le_compat_l; lra.
  - apply Rmult_le_compat_r; [lra |]. apply Rmult_le_compat_l; lra.
Qed.

Lemma binary_asset_against_cash_witness :
  (0 < 50 /\ 0 < 40 /\ 0 < 2 /\ 0 < 1 / 5) /\
  let m := BinaryOption__init__ 50 40 2 (1 / 5) (1 / 20) (1 / 100) in
  bi_cashcall m 50 <= bi_assetcall m /\ bi_assetput m <= bi_cashput m 50.
Proof.
  assert (Hyp : 0 < 50 /\ 0 < 40 /\ 0 < 2 /\ 0 < 1 / 5) by (repeat split; lra).
  split; [exact Hyp |]. destruct Hyp as [H1 [H2 [H3 H4]]].
  exact (binary_asset_against_cash 50 40 2 (1 / 5) (1 / 20) (1 / 100) H1 H2 H3 H4).
Defined.

Ltac barrier_fields :=
  cbv zeta;
  cbn [BarrierOption__init__ BlackScholes.H base BSmodel__init__
       BlackScholes.K BlackScholes.S0 BlackScholes.T BlackScholes.v
       BlackScholes.r BlackScholes.q lamb y x1 y1].

Ltac vanilla_fields :=
  unfold vanilla_european_call, vanilla_european_put, VanillaEuro__init__;
  cbn [BSmodel__init__ BlackScholes.K BlackScholes.S0 BlackScholes.T
       BlackScholes.v BlackScholes.r BlackScholes.q d1 d2].

(** With a knock argument that is neither 'out' nor 'in', a barrier method
    does what it does for 'out' up to the choice of the leg: it raises what
    the legs raise, and otherwise prints and returns -1. *)
Lemma unknown_knock (knock : string) (legs : result (R * R)) :
  knock <> "out"%string -> knock <> "in"%string ->
  let method := fun k : string =>
    l <- legs ;; let (out_leg, in_leg) := l in
                 Ok (select_knock k out_leg in_leg) in
  (forall o, method "out"%string = Ok o ->
     method knock = Ok (Return ["please input correct knock type"%string] (-1))) /\
  (forall e, method "out"%string = Raise e -> method knock = Raise e).
Proof.
  intros Ho Hi method. subst method.
  destruct legs as [[out_leg in_leg] | e0]; cbn [bind].
  - split; [| discriminate]. intros _ _. unfold select_knock.
    destruct (String.eqb_spec knock "out"); [contradiction |].
    destruct (String.eqb_spec knock "in"); [contradiction |].
    reflexivity.
  - split; [discriminate |]. intros e E. exact E.
Qed.

(** X13. For S0, K, T, v, H > 0 and a knock argument that is neither 'out'
    nor 'in', each of the four barrier methods computes its legs before it
    looks at knock: whenever the call with knock = 'out' returns, the call
    with the unknown knock prints "please input correct knock type" and
    returns -1; whenever the call with knock = 'out' raises (a power that
    overflows), the call with the unknown knock raises the same error and
    prints nothing. *)
Theorem barrier_unknown_knock (S0 K T v r q H : R) (knock : string) :
  0 < S0 -> 0 < K -> 0 < T -> 0 < v -> 0 < H ->
  knock <> "out"%string -> knock <> "in"%string ->
  let b := BarrierOption__init__ S0 K T v r q H in
  let sentinel := Return ["please input correct knock type"%string] (-1) in
  forall method, In method [down_call; up_call; up_put; down_put] ->
    (forall o, method b "out"%string = Ok o -> method b knock = Ok sentinel) /\
    (forall e, method b "out"%string = Raise e -> method b knock = Raise e).
Proof.
  intros _ _ _ _ _ Ho Hi b sentinel method Hin. subst sentinel.
  destruct Hin as [<- | [<- | [<- | [<- | []]]]];
    [unfold down_call | unfold up_call | unfold up_put | unfold down_put];
    cbv zeta; apply unknown_knock; assumption.
Qed.

Lemma barrier_unknown_knock_witness :
  (0 < 50 /\ 0 < 40 /\ 0 < 2 /\ 0 < 1 / 5 /\ 0 < 40 /\
   "In"%string <> "out"%string /\ "In"%string <> "in"%string /\
   In up_call [down_call; up_call; up_put; down_put]) /\
  let b := BarrierOption__init__ 50 40 2 (1 / 5) (1 / 20) (1 / 100) 40 in
  up_call b "out" = Ok (Return [] 0) /\
  up_call b "In" = Ok (Return ["please input correct knock type"%string] (-1)).
Proof.
  assert (Hyp : 0 < 50 /\ 0 < 40 /\ 0 < 2 /\ 0 < 1 / 5 /\ 0 < 40 /\
                "In"%string <> "out"%string /\ "In"%string <> "in"%string /\
                In up_call [down_call; up_call; up_put; down_put]).
  { repeat split; try lra; try discriminate. right. left. reflexivity. }
  split; [exact Hyp |]. destruct Hyp as [H1 [H2 [H3 [H4 [H5 [H6 [H7 H8]]]]]]].
  intro b.
  assert (Eout : up_call b "out" = Ok (Return [] 0)).
  { subst b. unfold up_call. barrier_fields.
    destruct (Rle_dec 40 40); [reflexivity | lra]. }
  split; [exact Eout |].
  exact (proj1 (barrier_unknown_knock 50 40 2 (1 / 5) (1 / 20) (1 / 100) 40 "In"
                  H1 H2 H3 H4 H5 H6 H7 up_call H8) _ Eout).
Defined.

(** X14. The quantities stored by the barrier constructor are related: for
    S0, K, T, v, H > 0, x1 + y1 = 2 lambda v sqrt(T),
    y = y1 + ln(H/K) / (v sqrt(T)), and the d1 of the base model is
    ln(S0/K) / (v sqrt(T)) + lambda v sqrt(T). *)
Theorem barrier_quantities (S0 K T v r q H : R) :
  0 < S0 -> 0 < K -> 0 < T -> 0 < v -> 0 < H ->
  let b := BarrierOption__init__ S0 K T v r q H in
  x1 b + y1 b = 2 * lamb b * v * sqrt T /\
  y b = y1 b + ln (H / K) / (v * sqrt T) /\
  d1 (base b) = ln (S0 / K) / (v * sqrt T) + lamb b * v * sqrt T.
Proof.
  intros HS HK HT Hv HH b. subst b. barrier_fields. cbn [d1].
  split; [| split].
  - unfold _x1, _y1.
    replace (H / S0) with (/ (S0 / H)) by (field; lra).
    rewrite ln_Rinv by (apply Rdiv_lt_0_compat; lra).
    unfold Rdiv. ring.
  - unfold _y, _y1.
    replace (H ^ 2 / (S0 * K)) with (H / S0 * (H / K)) by (field; lra).
    rewrite ln_mult by (apply Rdiv_lt_0_compat; lra).
    unfold Rdiv. ring.
  - apply d1_by_lambda; assumption.
Qed.

Lemma barrier_quantities_witness :
  (0 < 50 /\ 0 < 40 /\ 0 < 2 /\ 0 < 1 / 5 /\ 0 < 45) /\
  let b := BarrierOption__init__ 50 40 2 (1 / 5) (1 / 20) (1 / 100) 45 in
  x1 b + y1 b = 2 * lamb b * (1 / 5) * sqrt 2 /\
  y b = y1 b + ln (45 / 40) / (1 / 5 * sqrt 2) /\
  d1 (base b) = ln (50 / 40) / (1 / 5 * sqrt 2) + lamb b * (1 / 5) * sqrt 2.
Proof.
  assert (Hyp : 0 < 50 /\ 0 < 40 /\ 0 < 2 /\ 0 < 1 / 5 /\ 0 < 45)
    by (repeat split; lra).
  split; [exact Hyp |]. destruct Hyp as [H1 [H2 [H3 [H4 H5]]]].
  exact (barrier_quantities 50 40 2 (1 / 5) (1 / 20) (1 / 100) 45 H1 H2 H3 H4 H5).
Defined.

(** Rewriting of the barrier quantities when the barrier is at the spot: the
    base of both powers is then 1, and no power overflows. *)
Ltac at_spot HS HK HT Hv :=
  rewrite ?(y_at_spot _ _ _ _ _ _ HS HK HT Hv),
          ?(x1_at_spot _ _ _ _ HS), ?(y1_at_spot _ _ _ _ HS);
  match goal with
  | |- context [?s / ?s] => replace (s / s) with 1 by (field; lra)
  end;
  rewrite ?float_pow_base_one; cbn [bind];
  vanilla_fields;
  rewrite ?norm_cdf_standard;
  rewrite ?(d2_is_d1_minus _ _ _ _ _ _ HT Hv).

Ltac pick_leg :=
  cbn [bind]; cbv beta iota; rewrite ?select_knock_out, ?select_knock_in.

Ltac same_value := do 2 f_equal; ring.

(** X15. With the barrier at the spot (H = S0) and S0, K, T, v > 0, the
    down-and-out call is worth 0 and the down-and-in call is the vanilla
    call, on either side of the branch K <= H; both calls return and print
    nothing. *)
Theorem down_call_at_spot (S0 K T v r q : R) :
  0 < S0 -> 0 < K -> 0 < T -> 0 < v ->
  let b := BarrierOption__init__ S0 K T v r q S0 in
  down_call b "out" = Ok (Return [] 0) /\
  down_call b "in"
  = Ok (Return [] (vanilla_european_call (VanillaEuro__init__ S0 K T v r q))).
Proof.
  intros HS HK HT Hv b. subst b. unfold down_call. barrier_fields.
  at_spot HS HK HT Hv.
  replace (-1 * r * T) with (- r * T) by ring.
  destruct (Rle_dec K S0); pick_leg; split; same_value.
Qed.

Lemma down_call_at_spot_witness :
  (0 < 50 /\ 0 < 40 /\ 0 < 2 /\ 0 < 1 / 5) /\
  let b := BarrierOption__init__ 50 40 2 (1 / 5) (1 / 20) (1 / 100) 50 in
  down_call b "out" = Ok (Return [] 0) /\
  down_call b "in"
  = Ok (Return []
          (vanilla_european_call
             (VanillaEuro__init__ 50 40 2 (1 / 5) (1 / 20) (1 / 100)))).
Proof.
  assert (Hyp : 0 < 50 /\ 0 < 40 /\ 0 < 2 /\ 0 < 1 / 5) by (repeat split; lra).
  split; [exact Hyp |]. destruct Hyp as [H1 [H2 [H3 H4]]].
  exact (down_call_at_spot 50 40 2 (1 / 5) (1 / 20) (1 / 100) H1 H2 H3 H4).
Defined.

(** Phi at the opposite of a difference. *)
Ltac mirror_Phi :=
  repeat match goal with
         | |- context [Phi (- ?a + ?b)] =>
             replace (- a + b) with (- (a - b)) by ring
         end;
  rewrite ?Phi_opp.

(** X16. In real arithmetic, with the barrier at the spot (H = S0) and
    S0, K, T, v > 0, the up-and-out call is worth 0 and the up-and-in call is
    the vanilla call, on either side of the branch H <= K; both calls return
    and print nothing.  (For H > K the code computes the in leg by its own
    formula, so in floating point the two values are met up to rounding
    only.) *)
Theorem up_call_at_spot (S0 K T v r q : R) :
  0 < S0 -> 0 < K -> 0 < T -> 0 < v ->
  let b := BarrierOption__init__ S0 K T v r q S0 in
  up_call b "out" = Ok (Return [] 0) /\
  up_call b "in"
  = Ok (Return [] (vanilla_european_call (VanillaEuro__init__ S0 K T v r q))).
Proof.
  intros HS HK HT Hv b. subst b. unfold up_call. barrier_fields.
  destruct (Rle_dec S0 K).
  - pick_leg. split; reflexivity.
  - at_spot HS HK HT Hv.
    replace (-1 * r * T) with (- r * T) by ring.
    pick_leg; mirror_Phi; split; same_value.
Qed.

Lemma up_call_at_spot_witness :
  (0 < 50 /\ 0 < 40 /\ 0 < 2 /\ 0 < 1 / 5) /\
  let b := BarrierOption__init__ 50 40 2 (1 / 5) (1 / 20) (1 / 100) 50 in
  up_call b "out" = Ok (Return [] 0) /\
  up_call b "in"
  = Ok (Return []
          (vanilla_european_call
             (VanillaEuro__init__ 50 40 2 (1 / 5) (1 / 20) (1 / 100)))).
Proof.
  assert (Hyp : 0 < 50 /\ 0 < 40 /\ 0 < 2 /\ 0 < 1 / 5) by (repeat split; lra).
  split; [exact Hyp |]. destruct Hyp as [H1 [H2 [H3 H4]]].
  exact (up_call_at_spot 50 40 2 (1 / 5) (1 / 20) (1 / 100) H1 H2 H3 H4).
Defined.

(** X17. With the barrier at the spot and below the strike (H = S0 < K), the
    up-and-out put is worth 0 and the up-and-in put is the vanilla put; both
    calls return and print nothing. *)
Theorem up_put_at_spot_below_strike (S0 K T v r q : R) :
  0 < S0 -> 0 < K -> 0 < T -> 0 < v -> S0 < K ->
  let b := BarrierOption__init__ S0 K T v r q S0 in
  up_put b "out" = Ok (Return [] 0) /\
  up_put b "in"
  = Ok (Return [] (vanilla_european_put (VanillaEuro__init__ S0 K T v r q))).
Proof.
  intros HS HK HT Hv Hlt b. subst b. unfold up_put. barrier_fields.
  destruct (Rge_dec S0 K); [lra |].
  at_spot HS HK HT Hv.
  replace (-1 * r * T) with (- r * T) by ring.
  pick_leg. split; same_value.
Qed.

Lemma up_put_at_spot_below_strike_witness :
  (0 < 50 /\ 0 < 60 /\ 0 < 2 /\ 0 < 1 / 5 /\ 50 < 60) /\
  let b := BarrierOption__init__ 50 60 2 (1 / 5) (1 / 20) (1 / 100) 50 in
  up_put b "out" = Ok (Return [] 0) /\
  up_put b "in"
  = Ok (Return []
          (vanilla_european_put
             (VanillaEuro__init__ 50 60 2 (1 / 5) (1 / 20) (1 / 100)))).
Proof.
  assert (Hyp : 0 < 50 /\ 0 < 60 /\ 0 < 2 /\ 0 < 1 / 5 /\ 50 < 60)
    by (repeat split; lra).
  split; [exact Hyp |]. destruct Hyp as [H1 [H2 [H3 [H4 H5]]]].
  exact (up_put_at_spot_below_strike 50 60 2 (1 / 5) (1 / 20) (1 / 100)
           H1 H2 H3 H4 H5).
Defined.

(** X18. With the barrier at the spot and not below the strike
    (H = S0 >= K), up_put returns K e^(-rT) Phi(-d2) for knock = 'out' and
    -S0 e^(-qT) Phi(-d1) for knock = 'in': the out leg is the strike leg of
    the vanilla put, not 0.  Both calls return and print nothing. *)
Theorem up_put_at_spot_above_strike (S0 K T v r q : R) :
  0 < S0 -> 0 < K -> 0 < T -> 0 < v -> S0 >= K ->
  let b := BarrierOption__init__ S0 K T v r q S0 in
  up_put b "out"
  = Ok (Return [] (K * exp (- (r * T)) * Phi (- d2 (base b)))) /\
  up_put b "in"
  = Ok (Return [] (- S0 * exp (- (q * T)) * Phi (- d1 (base b)))).
Proof.
  intros HS HK HT Hv Hge b. subst b. unfold up_put. barrier_fields. cbn [d1 d2].
  destruct (Rge_dec S0 K); [| contradiction].
  at_spot HS HK HT Hv.
  replace (-1 * r * T) with (- (r * T)) by ring.
  replace (- q * T) with (- (q * T)) by ring.
  replace (-1 * (_d1 S0 K T v r q - v * sqrt T))
    with (- (_d1 S0 K T v r q - v * sqrt T)) by ring.
  replace (-1 * _d1 S0 K T v r q) with (- _d1 S0 K T v r q) by ring.
  pick_leg. split; same_value.
Qed.

Lemma up_put_at_spot_above_strike_witness :
  (0 < 50 /\ 0 < 40 /\ 0 < 2 /\ 0 < 1 / 5 /\ 50 >= 40) /\
  let b := BarrierOption__init__ 50 40 2 (1 / 5) (1 / 20) (1 / 100) 50 in
  up_put b "out"
  = Ok (Return [] (40 * exp (- (1 / 20 * 2)) * Phi (- d2 (base b)))) /\
  up_put b "in"
  = Ok (Return [] (- 50 * exp (- (1 / 100 * 2)) * Phi (- d1 (base b)))).
Proof.
  assert (Hyp : 0 < 50 /\ 0 < 40 /\ 0 < 2 /\ 0 < 1 / 5 /\ 50 >= 40)
    by (repeat split; lra).
  split; [exact Hyp |]. destruct Hyp as [H1 [H2 [H3 [H4 H5]]]].
  exact (up_put_at_spot_above_strike 50 40 2 (1 / 5) (1 / 20) (1 / 100)
           H1 H2 H3 H4 H5).
Defined.

Lemma down_put_at_spot_values (S0 K T v r q : R) :
  0 < S0 -> 0 < K -> 0 < T -> 0 < v -> S0 < K ->
  let b := BarrierOption__init__ S0 K T v r q S0 in
  let excess := S0 * exp (- (q * T)) * (2 * Phi (lamb b * v * sqrt T) - 1) in
  down_put b "in"
  = Ok (Return []
          (vanilla_european_put (VanillaEuro__init__ S0 K T v r q) + excess)) /\
  down_put b "out" = Ok (Return [] (- excess)).
Proof.
  intros HS HK HT Hv Hlt b excess. subst excess b. unfold down_put.
  barrier_fields.
  destruct (Rge_dec S0 K); [lra |].
  at_spot HS HK HT Hv.
  replace (-1 * r * T) with (- r * T) by ring.
  replace (- (q * T)) with (- q * T) by ring.
  replace (-1 * (_d1 S0 K T v r q - v * sqrt T))
    with (- (_d1 S0 K T v r q - v * sqrt T)) by ring.
  replace (-1 * _d1 S0 K T v r q) with (- _d1 S0 K T v r q) by ring.
  pick_leg. mirror_Phi. split; same_value.
Qed.

(** X19. With the barrier at the spot and below the strike (H = S0 < K),
    down_put returns the vanilla put plus
    S0 e^(-qT) (2 Phi(lambda v sqrt T) - 1) for knock = 'in' and the opposite
    of that excess for knock = 'out'.  Both calls return and print
    nothing. *)
Theorem down_put_at_spot_below_strike (S0 K T v r q : R) :
  0 < S0 -> 0 < K -> 0 < T -> 0 < v -> S0 < K ->
  let b := BarrierOption__init__ S0 K T v r q S0 in
  let excess := S0 * exp (- (q * T)) * (2 * Phi (lamb b * v * sqrt T) - 1) in
  down_put b "in"
  = Ok (Return []
          (vanilla_european_put (VanillaEuro__init__ S0 K T v r q) + excess)) /\
  down_put b "out" = Ok (Return [] (- excess)).
Proof. exact (down_put_at_spot_values S0 K T v r q). Qed.

Lemma down_put_at_spot_below_strike_witness :
  (0 < 50 /\ 0 < 60 /\ 0 < 2 /\ 0 < 1 / 5 /\ 50 < 60) /\
  let b := BarrierOption__init__ 50 60 2 (1 / 5) (1 / 20) (1 / 100) 50 in
  let excess := 50 * exp (- (1 / 100 * 2))
                * (2 * Phi (lamb b * (1 / 5) * sqrt 2) - 1) in
  down_put b "in"
  = Ok (Return []
          (vanilla_european_put
             (VanillaEuro__init__ 50 60 2 (1 / 5) (1 / 20) (1 / 100))
           + excess)) /\
  down_put b "out" = Ok (Return [] (- excess)).
Proof.
  assert (Hyp : 0 < 50 /\ 0 < 60 /\ 0 < 2 /\ 0 < 1 / 5 /\ 50 < 60)
    by (repeat split; lra).
  split; [exact Hyp |]. destruct Hyp as [H1 [H2 [H3 [H4 H5]]]].
  exact (down_put_at_spot_below_strike 50 60 2 (1 / 5) (1 / 20) (1 / 100)
           H1 H2 H3 H4 H5).
Defined.

(** On [0, m] the kernel is at least exp(-m^2/2), so the area is positive. *)
Lemma gauss_area_positive (m : R) : 0 < m -> 0 < gauss_area 0 m.
Proof.
  intro Hm. unfold gauss_area.
  set (c := exp (- (m * m) / 2)).
  assert (Hc : 0 < c) by apply exp_pos.
  assert (Hle : 0 <= m) by lra.
  pose proof (RiemannInt_P19 (RiemannInt_P14 0 m c) (gauss_integrable 0 m) Hle)
    as Hcmp.
  rewrite RiemannInt_P15 in Hcmp.
  assert (Hlow : c * (m - 0) <= RiemannInt (gauss_integrable 0 m)).
  { apply Hcmp. intros x [Hx0 Hxm]. unfold fct_cte, gauss, c.
    assert (Harg : - (m * m) / 2 <= - (x * x) / 2) by nra.
    destruct Harg as [Hlt | Heq]; [left; apply exp_increasing; exact Hlt |].
    rewrite Heq. apply Rle_refl. }
  assert (0 < c * (m - 0)) by (apply Rmult_lt_0_compat; lra).
  lra.
Qed.

Lemma Phi_above_half (m : R) : 0 < m -> 1 / 2 < Phi m.
Proof.
  intro Hm. unfold Phi.
  pose proof (gauss_area_positive m Hm) as Ha.
  assert (Hc : 0 < / sqrt (2 * PI)).
  { apply Rinv_0_lt_compat, sqrt_lt_R0. pose proof PI_RGT_0. lra. }
  assert (0 < / sqrt (2 * PI) * gauss_area 0 m) by (apply Rmult_lt_0_compat; lra).
  lra.
Qed.

(** X20. With the barrier at the spot and below the strike (H = S0 < K) and
    a positive drift term r - q + v^2/2, down_put returns for knock = 'out',
    prints nothing, and the value it returns is strictly negative. *)
Theorem down_put_out_negative_at_spot (S0 K T v r q : R) :
  0 < S0 -> 0 < K -> 0 < T -> 0 < v -> S0 < K -> 0 < r - q + v ^ 2 / 2 ->
  exists price,
    down_put (BarrierOption__init__ S0 K T v r q S0) "out"
    = Ok (Return [] price) /\
    price < 0.
Proof.
  intros HS HK HT Hv Hlt Hdrift.
  destruct (down_put_at_spot_values S0 K T v r q HS HK HT Hv Hlt) as [_ Eout].
  eexists. split; [exact Eout |]. cbn [lamb BarrierOption__init__].
  assert (Hlam : 0 < _lambda v r q).
  { unfold _lambda. apply Rdiv_lt_0_compat; [exact Hdrift |].
    apply pow_lt. exact Hv. }
  assert (Hm : 0 < _lambda v r q * v * sqrt T).
  { apply Rmult_lt_0_compat; [apply Rmult_lt_0_compat; lra |].
    apply sqrt_T_pos. exact HT. }
  pose proof (Phi_above_half _ Hm) as HPhi.
  pose proof (exp_pos (- (q * T))) as He.
  assert (0 < S0 * exp (- (q * T)) * (2 * Phi (_lambda v r q * v * sqrt T) - 1)).
  { apply Rmult_lt_0_compat; [apply Rmult_lt_0_compat; lra | lra]. }
  lra.
Qed.

Lemma down_put_out_negative_at_spot_witness :
  (0 < 50 /\ 0 < 60 /\ 0 < 2 /\ 0 < 1 / 5 /\ 50 < 60 /\
   0 < 1 / 20 - 1 / 100 + (1 / 5) ^ 2 / 2) /\
  exists price,
    down_put (BarrierOption__init__ 50 60 2 (1 / 5) (1 / 20) (1 / 100) 50) "out"
    = Ok (Return [] price) /\
    price < 0.
Proof.
  assert (Hyp : 0 < 50 /\ 0 < 60 /\ 0 < 2 /\ 0 < 1 / 5 /\ 50 < 60 /\
                0 < 1 / 20 - 1 / 100 + (1 / 5) ^ 2 / 2)
    by (repeat split; lra).
  split; [exact Hyp |]. destruct Hyp as [H1 [H2 [H3 [H4 [H5 H6]]]]].
  exact (down_put_out_negative_at_spot 50 60 2 (1 / 5) (1 / 20) (1 / 100)
           H1 H2 H3 H4 H5 H6).
Defined.

End BlackScholesProperties.
